(** * Book recommendation app: title search and neighbour fusion

    A shallow embedding of [streamlit_app.py]: the catalog table, the
    two-tier fill of [fuse_neighbors_streamlit] with its hydration against
    the in-memory DataFrame, and [search_books_streamlit] with its FTS5
    phrase query and fuzzy fallback. *)

From Stdlib Require Import QArith Qcanon Ascii.
From stdpp Require Import gmap strings list sorting pretty.

#[local] Set Warnings "-clear-no-such-hyp".

Local Open Scope Z_scope.

(** ** Data model *)

(** One row of the [books] table as [load_app_data] reads it.  Python
    integers are unbounded, hence [Z]; [average_rating] is carried around
    and never inspected. *)
Record BookRecord := mkBook {
  book_id : Z;
  title : string;
  average_rating : Qc;
  ratings_count : Z;
  top_desc_neighbors_ids : list Z;
  top_shelf_neighbors_ids : list Z
}.

(** A row of the frame returned by [fuse_neighbors_streamlit]: the columns
    [title], [average_rating], [ratings_count], [book_id], [source].  The
    [source] column comes from [Series.map], which leaves a missing value
    for an id outside the dictionary. *)
Record FusedRow := mkFused {
  f_title : string;
  f_average_rating : Qc;
  f_ratings_count : Z;
  f_book_id : Z;
  f_source : option string
}.

(** A tuple returned by [search_books_streamlit]. *)
Record SearchRow := mkSearch {
  s_book_id : Z;
  s_title : string;
  s_ratings_count : Z;
  s_average_rating : Qc
}.

(** Calls into the display layer that the two functions and the button
    handler make. *)
Inductive st_call :=
| st_success (msg : string)
| st_info (msg : string)
| st_warning (msg : string)
| st_error (msg : string).

(** Exceptions that escape to the caller. *)
Inductive exn :=
| OperationalError (msg : string)
| OverflowError
| RuntimeError.

Inductive outcome (A : Type) :=
| Ok (a : A)
| Raise (e : exn).
Arguments Ok {A} a.
Arguments Raise {A} e.

(** What the session keeps between reruns of the script. *)
Record session := mkSession {
  search_results : list SearchRow;
  selected_book_id : option Z;
  selected_book_title : option string
}.

(** Everything the code can read or write: the SQLite [books] table (in
    rowid order), the module-level DataFrame, the messages shown so far and
    the session state. *)
Record world := mkWorld {
  db_books : list BookRecord;
  books_df : list BookRecord;
  ui : list st_call;
  session_state : session
}.

(** ** State and exception monad *)

Definition M (A : Type) : Type := world → outcome A * world.

Global Instance M_ret : MRet M := λ A a w, (Ok a, w).
Global Instance M_bind : MBind M := λ A B f m w,
  match m w with
  | (Ok a, w') => f a w'
  | (Raise e, w') => (Raise e, w')
  end.

Definition raise {A} (e : exn) : M A := λ w, (Raise e, w).

(** A call into a library, which returns or raises and leaves the state
    alone. *)
Definition call {A} (o : outcome A) : M A := λ w, (o, w).

Definition st_emit (c : st_call) : M unit := λ w,
  (Ok tt, mkWorld (db_books w) (books_df w) (ui w ++ [c]) (session_state w)).

Definition read_books_df : M (list BookRecord) := λ w, (Ok (books_df w), w).
Definition read_db_books : M (list BookRecord) := λ w, (Ok (db_books w), w).

Definition set_session (s : session) : M unit := λ w,
  (Ok tt, mkWorld (db_books w) (books_df w) (ui w) s).

(** ** Neighbour fusion *)

Definition SRC_DESC : string := "Source: Description".
Definition SRC_SHELF : string := "Source: Popular Shelves".

(** The three accumulators of the fill loops. *)
Record fill_state := mkFill {
  fused_recommendations_ids : list Z;
  fused_recommendations_sources : list string;
  added_ids_set : gset Z
}.

Definition fill_init : fill_state := mkFill [] [] ∅.

(** One [for bid in ...] loop: an id not yet in the set is appended with
    the tier's tag, and the loop breaks when the length has reached [k].
    The length test sits after the append. *)
Fixpoint fill_tier (src : string) (k : Z) (l : list Z) (st : fill_state)
  : fill_state :=
  match l with
  | [] => st
  | bid :: rest =>
      if decide (bid ∈ added_ids_set st) then fill_tier src k rest st
      else
        let st' := mkFill (fused_recommendations_ids st ++ [bid])
                          (fused_recommendations_sources st ++ [src])
                          ({[bid]} ∪ added_ids_set st) in
        if decide (k ≤ Z.of_nat (length (fused_recommendations_ids st')))
        then st'
        else fill_tier src k rest st'
  end.

(** Both tiers; the second loop is entered only while the output is
    shorter than [k]. *)
Definition fill_both (k : Z) (desc shelf : list Z) : fill_state :=
  let st1 := fill_tier SRC_DESC k desc fill_init in
  if decide (Z.of_nat (length (fused_recommendations_ids st1)) < k)
  then fill_tier SRC_SHELF k shelf st1
  else st1.

(** A dict comprehension: later bindings of a key replace earlier ones. *)
Definition dict_of {V} (kvs : list (Z * V)) : gmap Z V :=
  foldl (λ m kv, <[kv.1 := kv.2]> m) ∅ kvs.

(** [{bid: i for i, bid in enumerate(ids)}] *)
Definition rank_map (ids : list Z) : gmap Z nat :=
  dict_of (zip ids (seq 0 (length ids))).

(** [{ids[i]: sources[i] for i in range(len(ids))}] *)
Definition source_map (ids : list Z) (sources : list string) : gmap Z string :=
  dict_of (zip ids sources).

(** Order of the [_rank] column under [sort_values]: ascending, missing
    values last. *)
Definition rank_le (a b : option nat) : Prop :=
  match a, b with
  | Some x, Some y => (x ≤ y)%nat
  | _, None => True
  | None, Some _ => False
  end.

Global Instance rank_le_dec a b : Decision (rank_le a b).
Proof. destruct a, b; simpl; apply _. Defined.

Definition row_rank_le (x y : BookRecord * option nat) : Prop :=
  rank_le x.2 y.2.

Global Instance row_rank_le_dec x y : Decision (row_rank_le x y).
Proof. unfold row_rank_le. apply _. Defined.

Global Instance rank_le_trans : Transitive rank_le.
Proof. intros [x|] [y|] [z|]; simpl; try done. lia. Qed.

Global Instance rank_le_total : Total rank_le.
Proof. intros [x|] [y|]; simpl; try tauto. lia. Qed.

Global Instance row_rank_le_trans : Transitive row_rank_le.
Proof. intros x y z. unfold row_rank_le. apply rank_le_trans. Qed.

Global Instance row_rank_le_total : Total row_rank_le.
Proof. intros x y. unfold row_rank_le. apply rank_le_total. Qed.

(** [sort_values("_rank")].  Pandas does not promise a stable sort here;
    [sorted_rows_unique] below shows that the choice of algorithm is
    immaterial when catalog ids are unique. *)
Definition sort_values_rank (rows : list (BookRecord * option nat))
  : list (BookRecord * option nat) :=
  merge_sort row_rank_le rows.

(** [matched_df] with its [_rank] column: the catalog rows whose id was
    selected, in catalog order, each with the position of its id. *)
Definition ranked_rows (df : list BookRecord) (ids : list Z)
  : list (BookRecord * option nat) :=
  (λ r, (r, rank_map ids !! book_id r)) <$> filter (λ r, book_id r ∈ ids) df.

(** Lines 143-156: select the catalog rows whose id was chosen, order them
    by rank, attach the tag, keep the five display columns. *)
Definition hydrate (df : list BookRecord) (st : fill_state) : list FusedRow :=
  let ids := fused_recommendations_ids st in
  let sm := source_map ids (fused_recommendations_sources st) in
  (λ p : BookRecord * option nat,
     mkFused (title p.1) (average_rating p.1) (ratings_count p.1)
             (book_id p.1) (sm !! book_id p.1))
    <$> sort_values_rank (ranked_rows df ids).

Definition not_found_msg (query_book_id : Z) : string :=
  "Query book ID " +:+ pretty query_book_id
    +:+ " not found in main DataFrame for recommendation fusion.".

Definition fuse_neighbors_streamlit (query_book_id k : Z) : M (list FusedRow) :=
  df ← read_books_df;
  match filter (λ r, book_id r = query_book_id) df with
  | [] =>
      _ ← st_emit (st_warning (not_found_msg query_book_id));
      mret []
  | query_book_row :: _ =>
      let st := fill_both k (top_desc_neighbors_ids query_book_row)
                            (top_shelf_neighbors_ids query_book_row) in
      match fused_recommendations_ids st with
      | [] => mret []
      | _ :: _ => mret (hydrate df st)
      end
  end.

(** ** Reference description of the fill *)

(** The ids of [l] in order of first occurrence, leaving out those already
    in [seen]. *)
Fixpoint fresh_ids (seen : gset Z) (l : list Z) : list Z :=
  match l with
  | [] => []
  | x :: rest =>
      if decide (x ∈ seen) then fresh_ids seen rest
      else x :: fresh_ids ({[x]} ∪ seen) rest
  end.

(** How many fresh ids one loop appends at most when it starts with [n]
    ids: the break test follows the append, so one id gets in even when
    [k] is already reached. *)
Definition quota (k : Z) (n : nat) : nat :=
  Nat.max 1 (Z.to_nat (k - Z.of_nat n)).

(** The ids the first loop appends, and those the second loop appends. *)
Definition tier1_ids (k : Z) (desc : list Z) : list Z :=
  take (quota k 0) (fresh_ids ∅ desc).

Definition tier2_ids (k : Z) (desc shelf : list Z) : list Z :=
  let t1 := tier1_ids k desc in
  if decide (Z.of_nat (length t1) < k)
  then take (quota k (length t1)) (fresh_ids (list_to_set t1) shelf)
  else [].

(** ** Hydration against a catalog with unique ids *)

(** The catalog row of an id, as [books_df[books_df.book_id == bid]]
    followed by [iloc[0]] finds it. *)
Definition lookup_book (df : list BookRecord) (bid : Z) : option BookRecord :=
  head (filter (λ r, book_id r = bid) df).

Definition fused_row (src : string) (r : BookRecord) : FusedRow :=
  mkFused (title r) (average_rating r) (ratings_count r) (book_id r) (Some src).

(** The rows of one tier: each id that resolves, in order, with its tag. *)
Definition hydrate_tier (df : list BookRecord) (src : string) (ids : list Z)
  : list FusedRow :=
  omap (λ bid, fused_row src <$> lookup_book df bid) ids.

(** The rows a selection resolves to, with their positions in it. *)
Fixpoint ranked_from (df : list BookRecord) (j : nat) (ids : list Z)
  : list (BookRecord * option nat) :=
  match ids with
  | [] => []
  | bid :: rest =>
      match lookup_book df bid with
      | Some r => (r, Some j) :: ranked_from df (S j) rest
      | None => ranked_from df (S j) rest
      end
  end.

(** ** Title search *)

(** *** The FTS5 query string

    The text handed to [MATCH] is read by SQLite's FTS5 query tokenizer.
    Its rules, as the FTS5 documentation gives them ("FTS5 Strings"): a
    string is either a run of bareword characters (letters, digits,
    underscore, any non-ASCII byte) or text enclosed in double quotes, in
    which a double quote is written by doubling it; a handful of
    punctuation characters are tokens on their own; the barewords AND, OR
    and NOT are operators; anything else is a syntax error, and so is a
    quoted string without its closing quote.  The text ends at the first
    NUL. *)

Definition dquote : ascii := ascii_of_nat 34.

Inductive fts5_token :=
| FTS5_STRING (text : string)
| FTS5_AND
| FTS5_OR
| FTS5_NOT
| FTS5_PUNCT (c : ascii).

Inductive lex_mode :=
| Top
| InString (buf : string)
| QuoteSeen (buf : string)
| InWord (buf : string).

Inductive top_action :=
| TopEnd
| TopSkip
| TopEnter (m : lex_mode)
| TopEmit (t : fts5_token)
| TopError (msg : string).

Definition is_space (c : ascii) : bool :=
  let n := nat_of_ascii c in
  (n =? 32)%nat || (n =? 9)%nat || (n =? 10)%nat || (n =? 13)%nat.

Definition is_bareword (c : ascii) : bool :=
  let n := nat_of_ascii c in
  (128 <=? n)%nat
  || ((48 <=? n)%nat && (n <=? 57)%nat)
  || ((65 <=? n)%nat && (n <=? 90)%nat)
  || ((97 <=? n)%nat && (n <=? 122)%nat)
  || (n =? 95)%nat || (n =? 26)%nat.

Definition is_punct (c : ascii) : bool :=
  let n := nat_of_ascii c in
  (n =? 40)%nat || (n =? 41)%nat || (n =? 123)%nat || (n =? 125)%nat
  || (n =? 58)%nat || (n =? 44)%nat || (n =? 43)%nat || (n =? 42)%nat
  || (n =? 45)%nat || (n =? 94)%nat.

Definition is_nul (c : ascii) : bool := (nat_of_ascii c =? 0)%nat.

Definition snoc_char (buf : string) (c : ascii) : string :=
  buf +:+ String c EmptyString.

(** What the tokenizer does with a character met between tokens. *)
Definition top_step (c : ascii) : top_action :=
  if is_nul c then TopEnd
  else if is_space c then TopSkip
  else if bool_decide (c = dquote) then TopEnter (InString EmptyString)
  else if is_punct c then TopEmit (FTS5_PUNCT c)
  else if is_bareword c then TopEnter (InWord (String c EmptyString))
  else TopError "fts5: syntax error".

Definition word_token (buf : string) : fts5_token :=
  if bool_decide (buf = "AND") then FTS5_AND
  else if bool_decide (buf = "OR") then FTS5_OR
  else if bool_decide (buf = "NOT") then FTS5_NOT
  else FTS5_STRING buf.

(** The outcome of tokenizing: the tokens, or the syntax error. *)
Inductive lexed :=
| LexError (msg : string)
| Tokens (ts : list fts5_token).

Definition push (t : fts5_token) (l : lexed) : lexed :=
  match l with
  | LexError msg => LexError msg
  | Tokens ts => Tokens (t :: ts)
  end.

Definition run_top (a : top_action) (continue : lex_mode → lexed) : lexed :=
  match a with
  | TopEnd => Tokens []
  | TopSkip => continue Top
  | TopEnter m => continue m
  | TopEmit t => push t (continue Top)
  | TopError msg => LexError msg
  end.

Fixpoint fts5_lex_go (m : lex_mode) (s : string) : lexed :=
  match s with
  | EmptyString =>
      match m with
      | Top => Tokens []
      | InString _ => LexError "unterminated string"
      | QuoteSeen buf => Tokens [FTS5_STRING buf]
      | InWord buf => Tokens [word_token buf]
      end
  | String c rest =>
      match m with
      | Top => run_top (top_step c) (λ m', fts5_lex_go m' rest)
      | InString buf =>
          if is_nul c then LexError "unterminated string"
          else if bool_decide (c = dquote) then fts5_lex_go (QuoteSeen buf) rest
          else fts5_lex_go (InString (snoc_char buf c)) rest
      | QuoteSeen buf =>
          if bool_decide (c = dquote)
          then fts5_lex_go (InString (snoc_char buf dquote)) rest
          else push (FTS5_STRING buf)
                    (run_top (top_step c) (λ m', fts5_lex_go m' rest))
      | InWord buf =>
          if is_bareword c then fts5_lex_go (InWord (snoc_char buf c)) rest
          else push (word_token buf)
                    (run_top (top_step c) (λ m', fts5_lex_go m' rest))
      end
  end.

Definition fts5_lex (s : string) : lexed :=
  fts5_lex_go Top s.

(** *** What the code takes from its collaborators *)

(** [ORDER BY ratings_count DESC]: no row comes after one with a lower
    count. *)
Definition ratings_ge (a b : BookRecord) : Prop :=
  ratings_count b ≤ ratings_count a.

Global Instance ratings_ge_dec a b : Decision (ratings_ge a b).
Proof. unfold ratings_ge. apply _. Defined.

(** The SQLite database behind [conn]: the [books_fts] index, whose rows
    are those of [books] (joined on rowid), and what SQL leaves to the
    engine.

    [phrase_hit p r]: the indexed title of row [r] contains phrase [p]
    under the index's tokenizer.  [fts5_eval_other] stands for every query
    that is not one single string: the rows it matches, or the error it is
    rejected with.

    [order_by_limit rows n] is [ORDER BY ratings_count DESC LIMIT n] over
    the rows [rows] that the [WHERE] clause keeps.  The result is in
    descending order of [ratings_count]; it is made of rows of [rows], each
    taken once, and no row left out has a higher count than a row returned;
    a negative [n] is no limit, otherwise [n] rows are returned when that
    many exist.  Which of several rows with equal counts come first is the
    engine's choice.

    [max_variable_number] is the most placeholders a statement may have
    (SQLITE_LIMIT_VARIABLE_NUMBER); the first [SELECT], with two, is
    accepted. *)
Class TitleIndex := {
  phrase_hit : string → BookRecord → bool;
  fts5_eval_other : list fts5_token → outcome (BookRecord → bool);
  order_by_limit : list BookRecord → Z → list BookRecord;
  max_variable_number : nat;
  order_by_limit_sorted rows n :
    StronglySorted ratings_ge (order_by_limit rows n);
  order_by_limit_top rows n :
    ∃ rest, order_by_limit rows n ++ rest ≡ₚ rows ∧
            ∀ x y, x ∈ order_by_limit rows n → y ∈ rest → ratings_ge x y;
  order_by_limit_length rows n :
    length (order_by_limit rows n) =
    if decide (n < 0) then length rows
    else Nat.min (Z.to_nat n) (length rows);
  max_variable_number_two : (2 ≤ max_variable_number)%nat
}.

(** The scorer behind [process.extract].  Only the order of the scores is
    used, so they are taken as integers. *)
Class Similarity := {
  scorer : string → string → Z
}.

(** The integers [sqlite3] can bind to a placeholder: those of 64 bits.
    Any other raises OverflowError when the parameters are bound. *)
Definition in_int64 (n : Z) : Prop := - 2 ^ 63 ≤ n < 2 ^ 63.

Global Instance in_int64_dec n : Decision (in_int64 n).
Proof. unfold in_int64. apply _. Defined.

Definition search_row (r : BookRecord) : SearchRow :=
  mkSearch (book_id r) (title r) (ratings_count r) (average_rating r).

(** Result tuples in the order asked for: most rated first. *)
Definition more_rated (a b : SearchRow) : Prop :=
  s_ratings_count b ≤ s_ratings_count a.

(** [f'"{title_query_str}"'] *)
Definition fts5_query_str (title_query_str : string) : string :=
  String dquote (title_query_str +:+ String dquote EmptyString).

(** The order [process.extract] sorts its (choice, score, index) triples
    in: higher score first, and among equal scores the lower index
    first. *)
Definition score_before (a b : string * Z * nat) : Prop :=
  b.1.2 < a.1.2 ∨ (b.1.2 = a.1.2 ∧ (a.2 ≤ b.2)%nat).

Global Instance score_before_dec a b : Decision (score_before a b).
Proof. unfold score_before. apply _. Defined.

Global Instance score_before_trans : Transitive score_before.
Proof. intros x y z. unfold score_before. lia. Qed.

Global Instance score_before_total : Total score_before.
Proof. intros x y. unfold score_before. lia. Qed.

Section resolver.
Context `{!TitleIndex, !Similarity}.

(** [books_fts MATCH ?]: the predicate on titles the query denotes, or
    the error the query is rejected with. *)
Definition fts5_match (query : string) : outcome (BookRecord → bool) :=
  match fts5_lex query with
  | LexError msg => Raise (OperationalError msg)
  | Tokens [FTS5_STRING p] => Ok (phrase_hit p)
  | Tokens toks => fts5_eval_other toks
  end.

(** [cursor.execute(sql_fts, (fts5_query_str, top_n))] and [fetchall].
    Binding [top_n] comes first; with [LIMIT 0] the engine returns no row
    without looking at the [MATCH], so a query the index would reject is
    not rejected then. *)
Definition sql_fts (db : list BookRecord) (query : string) (top_n : Z)
  : outcome (list SearchRow) :=
  if decide (in_int64 top_n) then
    if decide (top_n = 0) then Ok []
    else
      match fts5_match query with
      | Raise e => Raise e
      | Ok hit =>
          Ok (search_row <$> order_by_limit (filter (λ r, hit r) db) top_n)
      end
  else Raise OverflowError.

(** [process.extract(query, choices, limit=limit)]: every choice is
    scored, there is no cutoff, and the [limit] best are returned as
    (choice, score, index).  A negative [limit] raises RuntimeError. *)
Definition extract (query : string) (choices : list string) (limit : Z)
  : outcome (list (string * Z * nat)) :=
  if decide (limit < 0) then Raise RuntimeError
  else
    Ok (take (Z.to_nat limit)
             (merge_sort score_before
                         (imap (λ i c, (c, scorer query c, i)) choices))).

(** The second [SELECT], with one placeholder per matched title and one
    for the limit.  The statement is compiled, and its placeholders
    counted, before [top_n] is bound. *)
Definition sql_title_in (db : list BookRecord) (matched_titles : list string)
    (top_n : Z) : outcome (list SearchRow) :=
  if decide (length matched_titles + 1 ≤ max_variable_number)%nat then
    if decide (in_int64 top_n) then
      Ok (search_row <$>
            order_by_limit (filter (λ r, title r ∈ matched_titles) db) top_n)
    else Raise OverflowError
  else Raise (OperationalError "too many SQL variables").

Definition search_books_streamlit (title_query_str : string) (top_n : Z)
  : M (list SearchRow) :=
  db ← read_db_books;
  fts_results ← call (sql_fts db (fts5_query_str title_query_str) top_n);
  let formatted_results := fts_results in
  match formatted_results with
  | _ :: _ => mret formatted_results
  | [] =>
      let all_titles := title <$> db in
      fuzzy_matches ← call (extract title_query_str all_titles top_n);
      let matched_titles := (λ m, m.1.1) <$> fuzzy_matches in
      call (sql_title_in db matched_titles top_n)
  end.

Definition no_books_msg (search_title : string) : string :=
  " No books found matching '" +:+ search_title
    +:+ "'. Try a different title or spelling.".

(** The body of [if st.button("Get Recommendations"):] in [main]. *)
Definition on_get_recommendations (search_title : string) : M unit :=
  match search_title with
  | EmptyString => st_emit (st_info "Please enter a book title to start.")
  | String _ _ =>
      matched_books_results ← search_books_streamlit search_title 5;
      _ ← set_session (mkSession matched_books_results None None);
      match matched_books_results with
      | [] => st_emit (st_warning (no_books_msg search_title))
      | _ :: _ => mret tt
      end
  end.

(** *** The resolver in the words of its description *)

(** Phrase search: the titles containing the whole query as one phrase,
    most rated first, cut to [k]. *)
Definition phrase_search_spec (db : list BookRecord) (query : string) (k : Z)
  : list SearchRow :=
  search_row <$> order_by_limit (filter (λ r, phrase_hit query r) db) k.

(** Titles with their position in the table: the more similar to the
    query first, and of two equally similar ones the earlier. *)
Definition more_similar (query : string) (a b : nat * string) : Prop :=
  scorer query b.2 < scorer query a.2
  ∨ (scorer query b.2 = scorer query a.2 ∧ (a.1 ≤ b.1)%nat).

Global Instance more_similar_dec query a b : Decision (more_similar query a b).
Proof. unfold more_similar. apply _. Defined.

(** The [k] titles most similar to the query. *)
Definition top_similar (query : string) (titles : list string) (k : Z)
  : list string :=
  snd <$> take (Z.to_nat k) (merge_sort (more_similar query) (imap pair titles)).

(** Fallback: the [k] titles most similar to the query, their records
    fetched again, most rated first, cut to [k]. *)
Definition fuzzy_fallback_spec (db : list BookRecord) (query : string) (k : Z)
  : list SearchRow :=
  search_row <$>
    order_by_limit
      (filter (λ r, title r ∈ top_similar query (title <$> db) k) db) k.

Definition resolve_spec (db : list BookRecord) (query : string) (k : Z)
  : list SearchRow :=
  match phrase_search_spec db query k with
  | [] => fuzzy_fallback_spec db query k
  | found => found
  end.
End resolver.

(** ** Sample catalogs *)

Definition book (i : Z) (t : string) (n : Z) (desc shelf : list Z) : BookRecord :=
  mkBook i t 0%Qc n desc shelf.

Definition no_session : session := mkSession [] None None.

(** Book 1 with description neighbours 2, 3 and shelf neighbours 3, 4, 5. *)
Definition catalog_abcde : list BookRecord :=
  [ book 1 "A" 10 [2; 3] [3; 4; 5];
    book 2 "B" 20 [] [];
    book 3 "C" 30 [] [];
    book 4 "D" 40 [] [];
    book 5 "E" 50 [] [] ].

Definition world_abcde : world := mkWorld catalog_abcde catalog_abcde [] no_session.

(** Book 1 whose neighbours 2 and 3 have no row of their own. *)
Definition catalog_dangling : list BookRecord :=
  [ book 1 "A" 10 [2; 3] [] ].

Definition world_dangling : world :=
  mkWorld catalog_dangling catalog_dangling [] no_session.

(** Book 1 whose neighbour 7 has no row, next to neighbours that have. *)
Definition catalog_partial : list BookRecord :=
  [ book 1 "A" 10 [7; 2] [3];
    book 2 "B" 20 [] [];
    book 3 "C" 30 [] [] ].

Definition world_partial : world :=
  mkWorld catalog_partial catalog_partial [] no_session.

(** Book 1 listing itself among its description neighbours, after 2. *)
Definition catalog_self : list BookRecord :=
  [ book 1 "A" 10 [2; 1] [];
    book 2 "B" 20 [] [] ].

Definition world_self : world := mkWorld catalog_self catalog_self [] no_session.

(** Book 1 listing itself first. *)
Definition catalog_self_first : list BookRecord :=
  [ book 1 "A" 10 [1; 2] [];
    book 2 "B" 20 [] [] ].

Definition world_self_first : world :=
  mkWorld catalog_self_first catalog_self_first [] no_session.

(** Book 1 with shelf neighbours only. *)
Definition catalog_shelf_only : list BookRecord :=
  [ book 1 "A" 10 [] [2];
    book 2 "B" 20 [] [] ].

Definition world_shelf_only : world :=
  mkWorld catalog_shelf_only catalog_shelf_only [] no_session.


(** A query without a double quote and without a NUL. *)
Fixpoint quote_free (q : string) : bool :=
  match q with
  | EmptyString => true
  | String c rest =>
      negb (bool_decide (c = dquote)) && negb (is_nul c) && quote_free rest
  end.

(** [p] occurs in [t], character for character. *)
Fixpoint occurs_in (p t : string) : bool :=
  String.prefix p t
  || match t with
     | EmptyString => false
     | String _ t' => occurs_in p t'
     end.

(** Rows with their position in the table: higher count first, and of two
    rows with equal counts the earlier first. *)
Definition rated_before (a b : nat * BookRecord) : Prop :=
  ratings_count b.2 < ratings_count a.2
  ∨ (ratings_count b.2 = ratings_count a.2 ∧ (a.1 ≤ b.1)%nat).

Global Instance rated_before_dec a b : Decision (rated_before a b).
Proof. unfold rated_before. apply _. Defined.

Global Instance rated_before_trans : Transitive rated_before.
Proof. intros x y z. unfold rated_before. lia. Qed.

Global Instance rated_before_total : Total rated_before.
Proof. intros x y. unfold rated_before. lia. Qed.

Definition toy_order_by (rows : list BookRecord) : list BookRecord :=
  snd <$> merge_sort rated_before (imap pair rows).

(** [LIMIT n] on rows already in order: a negative [n] means no limit. *)
Definition sql_limit {A} (n : Z) (rows : list A) : list A :=
  if decide (n < 0) then rows else take (Z.to_nat n) rows.

(** A toy database: a title contains a phrase when the phrase occurs in
    it character for character; every other query is refused; rows with
    equal counts stay in table order; a statement takes up to [vars]
    placeholders. *)
Definition toy_index_with (vars : nat) (Hvars : (2 ≤ vars)%nat) : TitleIndex.
Proof.
  refine (Build_TitleIndex
            (λ p r, occurs_in p (title r))
            (λ _, Raise (OperationalError "fts5: syntax error"))
            (λ rows n, sql_limit n (toy_order_by rows))
            vars _ _ _ _).
  - intros rows n.
    assert (StronglySorted ratings_ge (toy_order_by rows)) as Hs.
    { apply (StronglySorted_fmap _ rated_before).
      - intros x y. unfold rated_before, ratings_ge. lia.
      - apply StronglySorted_merge_sort; apply _. }
    unfold sql_limit. case_decide; [done|].
    apply (StronglySorted_app_1_l _ _ (drop (Z.to_nat n) (toy_order_by rows))).
    by rewrite take_drop.
  - intros rows n.
    assert (toy_order_by rows ≡ₚ rows) as Hp.
    { unfold toy_order_by. rewrite merge_sort_Permutation, fmap_imap.
      rewrite (imap_ext _ (const id)) by done.
      by rewrite imap_const, list_fmap_id. }
    unfold sql_limit. case_decide.
    + exists []. rewrite app_nil_r. split; [done|].
      intros x y _ Hy. by apply elem_of_nil in Hy.
    + exists (drop (Z.to_nat n) (toy_order_by rows)).
      rewrite take_drop. split; [done|]. intros x y Hx Hy.
      apply (StronglySorted_app_1_elem_of ratings_ge
               (take (Z.to_nat n) (toy_order_by rows))
               (drop (Z.to_nat n) (toy_order_by rows))); [|done|done].
      rewrite take_drop.
      apply (StronglySorted_fmap _ rated_before).
      * intros a b. unfold rated_before, ratings_ge. lia.
      * apply StronglySorted_merge_sort; apply _.
  - intros rows n.
    assert (length (toy_order_by rows) = length rows) as Hl.
    { unfold toy_order_by.
      by rewrite length_fmap, merge_sort_Permutation, length_imap. }
    unfold sql_limit. case_decide; [done|]. by rewrite length_take, Hl.
  - exact Hvars.
Defined.

Definition toy_index : TitleIndex :=
  toy_index_with 999 (proj1 (Nat.leb_le 2 999) eq_refl).

(** The same with room for two placeholders only. *)
Definition small_index : TitleIndex := toy_index_with 2 (le_n 2).

(** A toy scorer: the length of the common prefix. *)
Fixpoint common_prefix (a b : string) : Z :=
  match a, b with
  | String x a', String y b' =>
      if bool_decide (x = y) then 1 + common_prefix a' b' else 0
  | _, _ => 0
  end.

Definition toy_similarity : Similarity := {| scorer := common_prefix |}.

Definition db_dune : list BookRecord :=
  [ book 1 "Dune" 500 [] [];
    book 2 "Dune Messiah" 300 [] [];
    book 3 "Emma" 900 [] [] ].

Definition world_dune : world := mkWorld db_dune db_dune [] no_session.

(** Three titles equally close to a query that starts with abc. *)
Definition db_ties : list BookRecord :=
  [ book 1 "abcx" 10 [] [];
    book 2 "abcy" 20 [] [];
    book 3 "abcz" 30 [] [] ].

Definition world_ties : world := mkWorld db_ties db_ties [] no_session.

(** Two equally rated titles. *)
Definition db_equal : list BookRecord :=
  [ book 1 "Dune" 7 [] [];
    book 2 "Dune II" 7 [] [];
    book 3 "Dune III" 7 [] [] ].

Definition world_equal : world := mkWorld db_equal db_equal [] no_session.

Definition world_empty : world := mkWorld [] [] [] no_session.

(** The query made of the letter a, a double quote and the letter b. *)
Definition query_with_quote : string :=
  String "a" (String dquote (String "b" EmptyString)).

Ltac by_eval := vm_compute; try reflexivity; try done.

(** ** Hydration with another sort *)

(** Lines 143-156 with the algorithm behind [sort_values] left open. *)
Definition hydrate_with
    (sort : list (BookRecord * option nat) → list (BookRecord * option nat))
    (df : list BookRecord) (st : fill_state) : list FusedRow :=
  let ids := fused_recommendations_ids st in
  let sm := source_map ids (fused_recommendations_sources st) in
  (λ p : BookRecord * option nat,
     mkFused (title p.1) (average_rating p.1) (ratings_count p.1)
             (book_id p.1) (sm !! book_id p.1))
    <$> sort (ranked_rows df ids).

(** An insertion sort on [_rank], as a second algorithm to compare with. *)
Fixpoint insert_by_rank (x : BookRecord * option nat)
    (l : list (BookRecord * option nat)) : list (BookRecord * option nat) :=
  match l with
  | [] => [x]
  | y :: rest =>
      if decide (row_rank_le x y) then x :: y :: rest
      else y :: insert_by_rank x rest
  end.

Definition insertion_sort_rank (l : list (BookRecord * option nat))
  : list (BookRecord * option nat) :=
  foldr insert_by_rank [] l.

(** ** Loading the catalog *)

(** A row of [books] as the [SELECT] of [load_app_data] returns it, the
    three list columns still JSON text. *)
Record RawRow := mkRaw {
  raw_book_id : Z;
  raw_title : string;
  raw_average_rating : Qc;
  raw_ratings_count : Z;
  similar_books_json : string;
  top_desc_neighbors_ids_json : string;
  top_shelf_neighbors_ids_json : string
}.

(** The exceptions the [try] block tells apart, with their text. *)
Inductive load_error :=
| FileNotFoundError (msg : string)
| OtherError (msg : string).

(** What [load_app_data] takes from outside: [sqlite3.connect] followed by
    [pd.read_sql] gives the rows or fails; [json.loads] on a list column
    gives the list of ids or fails with a message. *)
Class Storage := {
  read_books_table : load_error + list RawRow;
  json_loads : string → string + list Z
}.

(** The script either goes on with the frame or is halted by [st.stop]. *)
Inductive load_result :=
| Loaded (df : list BookRecord)
| Stopped.

Definition BOOKS_DB_PATH_WITH_RECS : string := "data/hybrid_recommendations.db".

Definition missing_db_msg (e : string) : string :=
  "Error loading main database: " +:+ e +:+ ". Ensure '"
    +:+ BOOKS_DB_PATH_WITH_RECS +:+ "' is correct.".

Definition unexpected_msg (e : string) : string :=
  "An unexpected error occurred loading data from DB: " +:+ e.

Definition loaded_msg : string :=
  "Main books data with precomputed neighbors loaded.".

Section loading.
Context `{!Storage}.

(** [books_df[col].apply(json.loads)]: row after row, up to the first
    failure. *)
Fixpoint decode_column (col : RawRow → string) (rows : list RawRow)
  : string + list (list Z) :=
  match rows with
  | [] => inr []
  | r :: rest =>
      match json_loads (col r) with
      | inl e => inl e
      | inr v =>
          match decode_column col rest with
          | inl e => inl e
          | inr vs => inr (v :: vs)
          end
      end
  end.

(** The frame after the JSON columns are dropped.  The decoded
    [similar_books_filtered] column is used nowhere in the script and has
    no field in [BookRecord]. *)
Definition build_frame (rows : list RawRow) (descs shelves : list (list Z))
  : list BookRecord :=
  zip_with (λ (r : RawRow) (ds : list Z * list Z),
              mkBook (raw_book_id r) (raw_title r) (raw_average_rating r)
                     (raw_ratings_count r) ds.1 ds.2)
           rows (zip descs shelves).

Definition stop_with (msg : string) (w : world) : load_result * world :=
  (Stopped, (st_emit (st_error msg) w).2).

Definition load_app_data (w : world) : load_result * world :=
  match read_books_table with
  | inl (FileNotFoundError e) => stop_with (missing_db_msg e) w
  | inl (OtherError e) => stop_with (unexpected_msg e) w
  | inr rows =>
      match decode_column similar_books_json rows with
      | inl e => stop_with (unexpected_msg e) w
      | inr _ =>
          match decode_column top_desc_neighbors_ids_json rows with
          | inl e => stop_with (unexpected_msg e) w
          | inr descs =>
              match decode_column top_shelf_neighbors_ids_json rows with
              | inl e => stop_with (unexpected_msg e) w
              | inr shelves =>
                  (Loaded (build_frame rows descs shelves),
                   (st_emit (st_success loaded_msg) w).2)
              end
          end
      end
  end.
(** A frame row is the table row with its two neighbour lists decoded. *)
Definition decoded (r : RawRow) (b : BookRecord) : Prop :=
  book_id b = raw_book_id r ∧
  title b = raw_title r ∧
  average_rating b = raw_average_rating r ∧
  ratings_count b = raw_ratings_count r ∧
  json_loads (top_desc_neighbors_ids_json r) = inr (top_desc_neighbors_ids b) ∧
  json_loads (top_shelf_neighbors_ids_json r) = inr (top_shelf_neighbors_ids b).

End loading.

(** ** Choosing among the matches *)

(** [l.index(x)]: the first position of [x]; [None] stands for the
    ValueError of an absent value. *)
Fixpoint list_index (x : Z) (l : list Z) : option nat :=
  match l with
  | [] => None
  | y :: rest => if decide (x = y) then Some 0%nat else S <$> list_index x rest
  end.

Definition selectbox_value_options (s : session) : list Z :=
  s_book_id <$> search_results s.

Definition selectbox_display_options (s : session) : list string :=
  s_title <$> search_results s.

(** Lines 205-207: the position of the book selected before, when it is
    among the options, else 0. *)
Definition default_index (s : session) : nat :=
  match selected_book_id s with
  | None => 0%nat
  | Some sel =>
      match list_index sel (selectbox_value_options s) with
      | Some i => i
      | None => 0%nat
      end
  end.

(** [lambda x: selectbox_display_options[selectbox_value_options.index(x)]];
    [None] stands for an exception. *)
Definition format_func (s : session) (x : Z) : option string :=
  i ← list_index x (selectbox_value_options s);
  selectbox_display_options s !! i.

(** What the block below the search puts on the page besides messages. *)
Inductive shown :=
| sh_subheader (text : string)
| sh_selectbox (label : string) (options : list Z)
               (labels : list (option string)) (index : nat)
| sh_write (text : string)
| sh_dataframe (rows : list FusedRow).

(** How the block ends: it ran through, or [iloc[0]] found no row, or a
    call below raised. *)
Inductive selection_outcome :=
| Rendered (screen : list shown)
| IndexError (screen : list shown)
| Raised (e : exn) (screen : list shown).

Definition selected_book_msg (t : string) (i : Z) : string :=
  "**Selected Book:** " +:+ t +:+ " (ID: " +:+ pretty i +:+ ")".

Definition no_recs_msg (t : string) : string :=
  "No recommendations found for '" +:+ t +:+ "'.".

Definition matches_screen (s : session) : list shown :=
  [ sh_subheader "Top Matches for Your Search:";
    sh_selectbox "Select a book:" (selectbox_value_options s)
                 (format_func s <$> selectbox_value_options s)
                 (default_index s) ].

(** Lines 196-236 of [main], with the value returned by [st.selectbox] as
    an argument.  Messages go to [ui] as elsewhere; the other elements
    are returned in the order they are drawn. *)
Definition show_selection (selected : option Z) (w : world)
  : selection_outcome * world :=
  let s := session_state w in
  match search_results s with
  | [] => (Rendered [], w)
  | _ :: _ =>
      match selected with
      | None =>
          (Rendered (matches_screen s),
           (st_emit (st_info
              "Please select a book from the matches to get recommendations.") w).2)
      | Some sel =>
          match filter (λ r, book_id r = sel) (books_df w) with
          | [] => (IndexError (matches_screen s), w)
          | row :: _ =>
              let w1 := mkWorld (db_books w) (books_df w) (ui w)
                          (mkSession (search_results s) (Some (book_id row))
                                     (Some (title row))) in
              let screen1 :=
                matches_screen s
                  ++ [sh_write (selected_book_msg (title row) (book_id row))] in
              match fuse_neighbors_streamlit (book_id row) 10 w1 with
              | (Raise e, w2) => (Raised e screen1, w2)
              | (Ok [], w2) =>
                  (Rendered screen1,
                   (st_emit (st_warning (no_recs_msg (title row))) w2).2)
              | (Ok (rec :: recs), w2) =>
                  (Rendered (screen1 ++ [sh_subheader "Recommended Books:";
                                         sh_dataframe (rec :: recs)]), w2)
              end
          end
      end
  end.

(** A toy store: three rows, the second with a broken list of similar
    books; and a decoder that knows the few texts the rows use. *)
Definition toy_json_loads (s : string) : string + list Z :=
  if bool_decide (s = "[]") then inr []
  else if bool_decide (s = "[2, 3]") then inr [2; 3]
  else if bool_decide (s = "[3]") then inr [3]
  else inl "Expecting value: line 1 column 1 (char 0)".

Definition raw_rows_good : list RawRow :=
  [ mkRaw 1 "A" 0%Qc 10 "[]" "[2, 3]" "[3]";
    mkRaw 2 "B" 0%Qc 20 "[]" "[]" "[]";
    mkRaw 3 "C" 0%Qc 30 "[]" "[]" "[]" ].

Definition raw_rows_bad : list RawRow :=
  [ mkRaw 1 "A" 0%Qc 10 "[]" "[2, 3]" "[3]";
    mkRaw 2 "B" 0%Qc 20 "oops" "[]" "[]" ].

Definition store_good : Storage :=
  {| read_books_table := inr raw_rows_good; json_loads := toy_json_loads |}.

Definition store_bad : Storage :=
  {| read_books_table := inr raw_rows_bad; json_loads := toy_json_loads |}.

Definition store_missing : Storage :=
  {| read_books_table := inl (OtherError "no such table: books");
     json_loads := toy_json_loads |}.

(** A session right after a search for Dune. *)
Definition session_dune : session :=
  mkSession [search_row (book 1 "Dune" 500 [] []);
             search_row (book 2 "Dune Messiah" 300 [] [])] None None.

(** The same matches with the second one selected before. *)
Definition session_dune_selected : session :=
  mkSession (search_results session_dune) (Some 2) None.

Definition world_dune_searched : world :=
  mkWorld db_dune db_dune [] session_dune.

(** The same matches over a DataFrame that lacks book 2. *)
Definition world_dune_stale : world :=
  mkWorld db_dune [book 1 "Dune" 500 [] []] [] session_dune.
(** * Properties *)

Section fill_facts.
Implicit Types (l : list Z) (seen : gset Z) (st : fill_state).

Lemma fresh_ids_elem_of seen l x :
  x ∈ fresh_ids seen l ↔ x ∈ l ∧ x ∉ seen.
Proof.
  revert seen. induction l as [|y l IH]; intros seen; simpl.
  - set_solver.
  - case_decide.
    + rewrite IH. set_solver.
    + rewrite elem_of_cons, IH.
      destruct (decide (x = y)) as [->|]; set_solver.
Qed.

Lemma fresh_ids_NoDup seen l : NoDup (fresh_ids seen l).
Proof.
  revert seen. induction l as [|y l IH]; intros seen; simpl.
  - constructor.
  - case_decide; [apply IH|].
    constructor; [|apply IH].
    rewrite fresh_ids_elem_of. set_solver.
Qed.

Lemma fresh_ids_app seen l1 l2 :
  fresh_ids seen (l1 ++ l2) =
  fresh_ids seen l1 ++ fresh_ids (list_to_set (fresh_ids seen l1) ∪ seen) l2.
Proof.
  revert seen. induction l1 as [|y l1 IH]; intros seen; simpl.
  - f_equal. set_solver.
  - case_decide; [apply IH|].
    simpl. f_equal. rewrite IH. do 2 f_equal. set_solver.
Qed.

Lemma fresh_ids_length l :
  length (fresh_ids ∅ l) = size (list_to_set l : gset Z).
Proof.
  rewrite <-(size_list_to_set (C := gset Z) (fresh_ids ∅ l))
    by apply fresh_ids_NoDup.
  f_equal. apply set_eq. intros x.
  rewrite !elem_of_list_to_set, fresh_ids_elem_of. set_solver.
Qed.

(** What one loop does, in one equation. *)
Lemma fill_tier_spec src k l st :
  let new := take (quota k (length (fused_recommendations_ids st)))
                  (fresh_ids (added_ids_set st) l) in
  fill_tier src k l st =
  mkFill (fused_recommendations_ids st ++ new)
         (fused_recommendations_sources st ++ replicate (length new) src)
         (list_to_set new ∪ added_ids_set st).
Proof.
  revert st. induction l as [|bid l IH]; intros [ids srcs seen]; simpl.
  - rewrite take_nil. simpl. rewrite !app_nil_r. f_equal. set_solver.
  - case_decide as Hin; [apply IH|].
    rewrite length_app. simpl.
    case_decide as Hk.
    + replace (quota k (length ids)) with 1%nat by (unfold quota; lia).
      simpl. rewrite take_0. simpl. f_equal. set_solver.
    + rewrite IH. simpl. rewrite length_app. simpl.
      replace (quota k (length ids)) with (S (quota k (length ids + 1)))
        by (unfold quota; lia).
      simpl. rewrite <-!app_assoc. simpl. f_equal. set_solver.
Qed.

Lemma quota_pos k n : 1 ≤ k → Z.of_nat n < k → quota k n = (Z.to_nat k - n)%nat.
Proof. unfold quota. lia. Qed.

(** For [k >= 1] the two loops together pick the first [k] distinct ids
    of the description list followed by the shelf list. *)
Lemma fill_both_ids k desc shelf :
  1 ≤ k →
  fused_recommendations_ids (fill_both k desc shelf) =
  take (Z.to_nat k) (fresh_ids ∅ (desc ++ shelf)).
Proof.
  intros Hk. unfold fill_both. rewrite fill_tier_spec. simpl.
  rewrite (quota_pos k 0) by lia. rewrite Nat.sub_0_r.
  rewrite fresh_ids_app, take_app.
  set (d := fresh_ids ∅ desc).
  case_decide as Hlt.
  - rewrite length_take in Hlt.
    assert (length d < Z.to_nat k)%nat as Hd by lia.
    rewrite fill_tier_spec. simpl.
    rewrite (take_ge d) by lia.
    rewrite quota_pos by (rewrite ?length_app; lia).
    done.
  - rewrite length_take in Hlt.
    assert (Z.to_nat k ≤ length d)%nat as Hd by lia.
    replace (Z.to_nat k - length d)%nat with 0%nat by lia.
    rewrite take_0. by rewrite app_nil_r.
Qed.

(** For [k <= 0] the first loop still lets one id through and the
    second loop is skipped. *)
Lemma fill_both_ids_nonpos k desc shelf :
  k ≤ 0 →
  fused_recommendations_ids (fill_both k desc shelf) =
  take 1 (fresh_ids ∅ desc).
Proof.
  intros Hk. unfold fill_both. rewrite fill_tier_spec. simpl.
  replace (quota k 0) with 1%nat by (unfold quota; lia).
  case_decide as Hlt; [|done].
  rewrite length_take in Hlt. lia.
Qed.
End fill_facts.

Lemma fill_both_spec k desc shelf :
  let t1 := tier1_ids k desc in
  let t2 := tier2_ids k desc shelf in
  fill_both k desc shelf =
  mkFill (t1 ++ t2)
         (replicate (length t1) SRC_DESC ++ replicate (length t2) SRC_SHELF)
         (list_to_set (t1 ++ t2)).
Proof.
  unfold fill_both, tier2_ids, tier1_ids. rewrite fill_tier_spec. simpl.
  set (t1 := take (quota k 0) (fresh_ids ∅ desc)).
  case_decide as Hlt.
  - rewrite fill_tier_spec. simpl.
    replace (list_to_set t1 ∪ ∅ : gset Z) with (list_to_set t1 : gset Z)
      by set_solver.
    f_equal. rewrite list_to_set_app_L. set_solver.
  - rewrite !app_nil_r. simpl. f_equal. set_solver.
Qed.

Lemma tier_ids_NoDup k desc shelf :
  NoDup (tier1_ids k desc ++ tier2_ids k desc shelf).
Proof.
  unfold tier2_ids. set (t1 := tier1_ids k desc).
  assert (NoDup t1) as H1.
  { eapply sublist_NoDup; [apply fresh_ids_NoDup|apply sublist_take]. }
  case_decide; [|by rewrite app_nil_r].
  apply NoDup_app. split_and!; [done| |].
  - intros x Hx Hx2. apply subseteq_take in Hx2.
    apply fresh_ids_elem_of in Hx2. set_solver.
  - eapply sublist_NoDup; [apply fresh_ids_NoDup|apply sublist_take].
Qed.

Section dict_facts.
Context {V : Type}.
Implicit Types (kvs : list (Z * V)).

Lemma dict_of_snoc kvs kv :
  dict_of (kvs ++ [kv]) = <[kv.1 := kv.2]> (dict_of kvs).
Proof. unfold dict_of. by rewrite foldl_snoc. Qed.

Lemma dict_of_lookup kvs k v :
  NoDup (kvs.*1) → dict_of kvs !! k = Some v ↔ (k, v) ∈ kvs.
Proof.
  induction kvs as [|[k' v'] kvs IH] using rev_ind; intros Hnd.
  - unfold dict_of. simpl. rewrite lookup_empty. set_solver.
  - rewrite fmap_app in Hnd. apply NoDup_app in Hnd as (Hnd & Hfresh & _).
    rewrite dict_of_snoc, elem_of_app, list_elem_of_singleton. simpl.
    destruct (decide (k' = k)) as [->|Hne].
    + rewrite lookup_insert_eq. split.
      * intros [= ->]. by right.
      * intros [Hin|[= ->]]; [|done].
        exfalso. apply (Hfresh k); [|set_solver].
        apply list_elem_of_fmap. by exists (k, v).
    + rewrite lookup_insert_ne by done. rewrite IH by done.
      split; [by left|]. intros [?|[= ? ?]]; [done|congruence].
Qed.
End dict_facts.

Lemma rank_map_lookup ids bid i :
  NoDup ids → rank_map ids !! bid = Some i ↔ ids !! i = Some bid.
Proof.
  intros Hnd. unfold rank_map. rewrite dict_of_lookup.
  - rewrite list_elem_of_lookup. split.
    + intros [j Hj]. apply lookup_zip_with_Some in Hj as (x & y & [= -> ->] & Hx & Hy).
      apply lookup_seq in Hy as [-> _]. done.
    + intros Hi. exists i. apply lookup_zip_with_Some. exists bid, i.
      split_and!; [done..|].
      apply lookup_seq. split; [done|]. by eapply lookup_lt_Some.
  - rewrite fst_zip; [done|]. by rewrite length_seq.
Qed.

Lemma source_map_lookup ids sources i bid src :
  NoDup ids → length ids = length sources →
  ids !! i = Some bid → sources !! i = Some src →
  source_map ids sources !! bid = Some src.
Proof.
  intros Hnd Hlen Hi Hs. unfold source_map. apply dict_of_lookup.
  - rewrite fst_zip; [done|lia].
  - apply list_elem_of_lookup. exists i. apply lookup_zip_with_Some. eauto.
Qed.

Section hydrate_facts.
Context (df : list BookRecord) (Hdf : NoDup (book_id <$> df)).
Implicit Types (ids : list Z) (r : BookRecord).

Lemma book_id_inj r r' : r ∈ df → r' ∈ df → book_id r = book_id r' → r = r'.
Proof using Hdf.
  intros [i Hi]%list_elem_of_lookup [i' Hi']%list_elem_of_lookup Heq.
  assert (i = i') as <-; [|congruence].
  eapply (NoDup_lookup _ _ _ _ Hdf); rewrite list_lookup_fmap.
  - by rewrite Hi.
  - rewrite Hi'. simpl. by rewrite Heq.
Qed.

Lemma lookup_book_Some bid r :
  lookup_book df bid = Some r ↔ r ∈ df ∧ book_id r = bid.
Proof using Hdf.
  unfold lookup_book. split.
  - intros H%head_Some_elem_of. by apply list_elem_of_filter in H as [? ?].
  - intros [Hin Hid].
    destruct (head _) as [r'|] eqn:Hh.
    + pose proof Hh as H'%head_Some_elem_of.
      apply list_elem_of_filter in H' as [? ?].
      f_equal. apply book_id_inj; congruence.
    + apply head_None in Hh.
      assert (r ∈ filter (λ r, book_id r = bid) df) as Hf
        by by apply list_elem_of_filter.
      rewrite Hh in Hf. by apply elem_of_nil in Hf.
Qed.

Lemma lookup_book_None bid :
  lookup_book df bid = None ↔ bid ∉ book_id <$> df.
Proof using Hdf.
  rewrite eq_None_not_Some. apply not_iff_compat.
  rewrite list_elem_of_fmap. unfold is_Some. split.
  - intros [r Hr%lookup_book_Some]. exists r. naive_solver.
  - intros (r & -> & Hin). exists r. by apply lookup_book_Some.
Qed.

Lemma elem_of_ranked_from j ids r o :
  (r, o) ∈ ranked_from df j ids ↔
  ∃ i, o = Some (j + i)%nat ∧ ids !! i = Some (book_id r) ∧ r ∈ df.
Proof using Hdf.
  revert j. induction ids as [|bid ids IH]; intros j; simpl.
  - split; [by intros ?%elem_of_nil|]. by intros (i & _ & ? & _).
  - assert ((r, o) ∈ ranked_from df (S j) ids ↔
            ∃ i, o = Some (j + S i)%nat ∧ ids !! i = Some (book_id r) ∧ r ∈ df)
      as IH'.
    { rewrite IH. by setoid_rewrite Nat.add_succ_r. }
    destruct (lookup_book df bid) as [r'|] eqn:Hl.
    + apply lookup_book_Some in Hl as [Hin' Hid'].
      rewrite elem_of_cons, IH'. split.
      * intros [[= -> ->]|(i & ? & ? & ?)].
        -- exists 0%nat. rewrite Nat.add_0_r. simpl. by rewrite Hid'.
        -- by exists (S i).
      * intros ([|i] & Ho & Hi & Hin); simpl in Hi.
        -- left. rewrite Nat.add_0_r in Ho. subst o. f_equal.
           apply book_id_inj; congruence.
        -- right. by exists i.
    + rewrite IH'. split.
      * intros (i & ? & ? & ?). by exists (S i).
      * intros ([|i] & Ho & Hi & Hin); simpl in Hi; [|by exists i].
        apply lookup_book_None in Hl. exfalso. apply Hl.
        apply list_elem_of_fmap. exists r. split; congruence.
Qed.

Lemma ranked_from_sorted j ids :
  StronglySorted row_rank_le (ranked_from df j ids).
Proof using Hdf.
  revert j. induction ids as [|bid ids IH]; intros j; simpl; [constructor|].
  destruct (lookup_book df bid) as [r'|]; [|apply IH].
  constructor; [apply IH|].
  apply Forall_forall. intros [r o] (i & -> & _)%elem_of_ranked_from.
  unfold row_rank_le. simpl. lia.
Qed.

Lemma ranked_from_NoDup j ids : NoDup (ranked_from df j ids).
Proof using Hdf.
  revert j. induction ids as [|bid ids IH]; intros j; simpl; [constructor|].
  destruct (lookup_book df bid) as [r'|]; [|apply IH].
  constructor; [|apply IH].
  intros (i & [= Hi] & _)%elem_of_ranked_from. lia.
Qed.
Lemma elem_of_ranked_rows ids r o :
  NoDup ids →
  (r, o) ∈ ranked_rows df ids ↔
  ∃ i, o = Some i ∧ ids !! i = Some (book_id r) ∧ r ∈ df.
Proof.
  intros Hnd. unfold ranked_rows.
  rewrite list_elem_of_fmap. setoid_rewrite list_elem_of_filter. split.
  - intros (r' & [= <- ->] & Hsel & Hin).
    apply list_elem_of_lookup in Hsel as [i Hi].
    exists i. split_and!; [|done..]. by apply rank_map_lookup.
  - intros (i & -> & Hi & Hin). exists r. split_and!; [|by eapply list_elem_of_lookup_2|done].
    f_equal. symmetry. by apply rank_map_lookup.
Qed.

Lemma ranked_rows_perm ids :
  NoDup ids → ranked_rows df ids ≡ₚ ranked_from df 0 ids.
Proof using Hdf.
  intros Hnd. apply NoDup_Permutation.
  - unfold ranked_rows. apply NoDup_fmap_2_strong.
    + intros r r' _ _ [= ? _]. done.
    + apply NoDup_filter. by apply NoDup_fmap_1 in Hdf.
  - apply ranked_from_NoDup.
  - intros [r o]. rewrite elem_of_ranked_rows, elem_of_ranked_from by done.
    done.
Qed.
End hydrate_facts.

Section hydrate_order.
Context (df : list BookRecord) (Hdf : NoDup (book_id <$> df)).

(** Whatever algorithm [sort_values] runs, a frame sorted by [_rank]
    with the selected rows is this one. *)
Lemma sorted_rows_unique ids rows :
  NoDup ids →
  rows ≡ₚ ranked_rows df ids →
  Sorted row_rank_le rows →
  rows = ranked_from df 0 ids.
Proof using Hdf.
  intros Hnd Hperm Hsorted.
  apply (StronglySorted_unique_strong row_rank_le).
  - intros [r o] [r' o'] Hin Hin' Hle Hge.
    rewrite Hperm in Hin. apply elem_of_ranked_rows in Hin as (i & -> & Hi & Hr); [|done].
    apply elem_of_ranked_from in Hin' as (i' & -> & Hi' & Hr'); [|done].
    unfold row_rank_le in Hle, Hge. simpl in *.
    assert (i = i') as <- by lia.
    f_equal. apply (book_id_inj df); [done..|congruence].
  - by apply Sorted_StronglySorted; [apply _|].
  - by apply ranked_from_sorted.
  - rewrite Hperm. by apply ranked_rows_perm.
Qed.

Lemma sort_values_rank_spec ids :
  NoDup ids → sort_values_rank (ranked_rows df ids) = ranked_from df 0 ids.
Proof using Hdf.
  intros Hnd. apply sorted_rows_unique; [done| |].
  - apply merge_sort_Permutation.
  - apply Sorted_merge_sort, _.
Qed.

Lemma tag_ranked_from sm src j ids :
  (∀ bid, bid ∈ ids → sm !! bid = Some src) →
  (λ p : BookRecord * option nat,
     mkFused (title p.1) (average_rating p.1) (ratings_count p.1)
             (book_id p.1) ((sm : gmap Z string) !! book_id p.1))
    <$> ranked_from df j ids
  = hydrate_tier df src ids.
Proof using Hdf.
  revert j. induction ids as [|bid ids IH]; intros j Hsm; [done|].
  simpl. unfold hydrate_tier. simpl.
  destruct (lookup_book df bid) as [r|] eqn:Hl; simpl.
  - apply lookup_book_Some in Hl as [_ Hid]; [|done].
    rewrite IH by set_solver. unfold fused_row at 1.
    rewrite Hid, Hsm by set_solver. done.
  - apply IH. set_solver.
Qed.
End hydrate_order.

Lemma ranked_from_app df j ids1 ids2 :
  ranked_from df j (ids1 ++ ids2) =
  ranked_from df j ids1 ++ ranked_from df (j + length ids1) ids2.
Proof.
  revert j. induction ids1 as [|bid ids1 IH]; intros j; simpl.
  - by rewrite Nat.add_0_r.
  - rewrite IH, <-Nat.add_succ_comm.
    by destruct (lookup_book df bid).
Qed.

(** The frame built by lines 143-156 from the result of the two loops. *)
Lemma hydrate_spec df k desc shelf :
  NoDup (book_id <$> df) →
  hydrate df (fill_both k desc shelf) =
  hydrate_tier df SRC_DESC (tier1_ids k desc)
    ++ hydrate_tier df SRC_SHELF (tier2_ids k desc shelf).
Proof.
  intros Hdf. rewrite fill_both_spec. unfold hydrate. simpl.
  set (t1 := tier1_ids k desc). set (t2 := tier2_ids k desc shelf).
  pose proof (tier_ids_NoDup k desc shelf) as Hnd. fold t1 t2 in Hnd.
  rewrite sort_values_rank_spec, ranked_from_app, fmap_app by done.
  set (srcs := replicate (length t1) SRC_DESC ++ replicate (length t2) SRC_SHELF).
  assert (length (t1 ++ t2) = length srcs) as Hlen.
  { unfold srcs. by rewrite !length_app, !length_replicate. }
  f_equal; apply tag_ranked_from; try done.
  - intros bid [i Hi]%list_elem_of_lookup.
    apply (source_map_lookup _ _ i); [done..| |].
    + by apply lookup_app_l_Some.
    + unfold srcs. apply lookup_app_l_Some, lookup_replicate.
      split; [done|]. by eapply lookup_lt_Some.
  - intros bid [i Hi]%list_elem_of_lookup.
    apply (source_map_lookup _ _ (length t1 + i)); [done..| |].
    + by rewrite lookup_app_r, Nat.add_comm, Nat.add_sub by lia.
    + unfold srcs. rewrite lookup_app_r by (rewrite length_replicate; lia).
      rewrite length_replicate, Nat.add_comm, Nat.add_sub.
      apply lookup_replicate. split; [done|]. by eapply lookup_lt_Some.
Qed.

(** [fuse_neighbors_streamlit] on a book of the catalog. *)
Lemma fuse_spec w q k row :
  NoDup (book_id <$> books_df w) →
  lookup_book (books_df w) q = Some row →
  fuse_neighbors_streamlit q k w =
  (Ok (hydrate_tier (books_df w) SRC_DESC
         (tier1_ids k (top_desc_neighbors_ids row))
       ++ hydrate_tier (books_df w) SRC_SHELF
         (tier2_ids k (top_desc_neighbors_ids row)
                      (top_shelf_neighbors_ids row))), w).
Proof.
  intros Hdf Hrow. unfold lookup_book in Hrow.
  apply head_Some in Hrow as [rest Hrow].
  unfold fuse_neighbors_streamlit, mbind, M_bind, read_books_df, mret, M_ret.
  rewrite Hrow.
  destruct (fused_recommendations_ids (fill_both k _ _)) as [|bid ids] eqn:Hids.
  - rewrite fill_both_spec in Hids. simpl in Hids.
    apply app_eq_nil in Hids as [-> ->]. done.
  - by rewrite hydrate_spec.
Qed.

(** On an id outside the catalog. *)
Lemma fuse_absent w q k :
  q ∉ book_id <$> books_df w →
  fuse_neighbors_streamlit q k w =
  (Ok [], mkWorld (db_books w) (books_df w)
                  (ui w ++ [st_warning (not_found_msg q)]) (session_state w)).
Proof.
  intros Hq.
  unfold fuse_neighbors_streamlit, mbind, M_bind, read_books_df, mret, M_ret.
  destruct (filter _ _) as [|r rest] eqn:Hf; [done|].
  exfalso. apply Hq.
  assert (r ∈ filter (λ r, book_id r = q) (books_df w)) as Hin
    by (rewrite Hf; left).
  apply list_elem_of_filter in Hin as [<- Hin].
  by apply list_elem_of_fmap_2.
Qed.

Section tier_rows.
Context (df : list BookRecord) (Hdf : NoDup (book_id <$> df)).

Lemma hydrate_tier_cons src bid ids :
  hydrate_tier df src (bid :: ids) =
  match lookup_book df bid with
  | Some r => fused_row src r :: hydrate_tier df src ids
  | None => hydrate_tier df src ids
  end.
Proof. unfold hydrate_tier. simpl. by destruct (lookup_book df bid). Qed.

Lemma hydrate_tier_ids src ids :
  f_book_id <$> hydrate_tier df src ids =
  filter (λ bid, bid ∈ book_id <$> df) ids.
Proof using Hdf.
  induction ids as [|bid ids IH]; [done|].
  rewrite hydrate_tier_cons, filter_cons.
  destruct (lookup_book df bid) as [r|] eqn:Hl.
  - apply lookup_book_Some in Hl as [Hin <-]; [|done].
    rewrite decide_True by by apply list_elem_of_fmap_2.
    rewrite fmap_cons, IH. done.
  - apply lookup_book_None in Hl; [|done]. by rewrite decide_False.
Qed.

Lemma hydrate_tier_source src ids x :
  x ∈ hydrate_tier df src ids → f_source x = Some src.
Proof.
  unfold hydrate_tier. intros (bid & _ & Hx)%list_elem_of_omap.
  destruct (lookup_book df bid); simplify_eq/=. done.
Qed.

Lemma hydrate_tier_length src ids :
  (length (hydrate_tier df src ids) ≤ length ids)%nat.
Proof.
  induction ids as [|bid ids IH]; [done|].
  rewrite hydrate_tier_cons. destruct (lookup_book df bid); simpl; lia.
Qed.

Lemma hydrate_tier_full src ids :
  Forall (λ bid, bid ∈ book_id <$> df) ids →
  length (hydrate_tier df src ids) = length ids.
Proof using Hdf.
  intros Hall.
  rewrite <-(length_fmap f_book_id), hydrate_tier_ids.
  f_equal. induction Hall as [|bid ids Hb _ IH]; [done|].
  by rewrite filter_cons, decide_True, IH.
Qed.
End tier_rows.

Lemma SRC_DESC_ne_SHELF : SRC_DESC ≠ SRC_SHELF.
Proof. done. Qed.

(** ** Bounds on the fused output *)

Lemma filter_resolvable_shorter (df : list BookRecord) (ids : list Z) :
  Exists (λ bid, bid ∉ book_id <$> df) ids →
  (length (filter (λ bid, bid ∈ book_id <$> df) ids) < length ids)%nat.
Proof.
  induction 1 as [bid ids Hb|bid ids _ IH]; rewrite filter_cons.
  - rewrite decide_False by done.
    pose proof (length_filter (λ bid, bid ∈ book_id <$> df) ids). simpl. lia.
  - case_decide; simpl; lia.
Qed.

Lemma tier_ids_length_pos k desc shelf :
  1 ≤ k →
  length (tier1_ids k desc ++ tier2_ids k desc shelf) =
  Nat.min (Z.to_nat k) (size (list_to_set (desc ++ shelf) : gset Z)).
Proof.
  intros Hk.
  pose proof (fill_both_ids k desc shelf Hk) as Hids.
  rewrite fill_both_spec in Hids. simpl in Hids.
  by rewrite Hids, length_take, fresh_ids_length.
Qed.

(** For [k >= 1] at most [k] rows come back, and never the same id twice. *)
Lemma fuse_bounded_pos w q k row :
  NoDup (book_id <$> books_df w) →
  lookup_book (books_df w) q = Some row →
  1 ≤ k →
  ∃ out, fuse_neighbors_streamlit q k w = (Ok out, w) ∧
         Z.of_nat (length out) ≤ k ∧ NoDup (f_book_id <$> out).
Proof.
  intros Hdf Hrow Hk. eexists. split; [by apply fuse_spec|].
  set (desc := top_desc_neighbors_ids row).
  set (shelf := top_shelf_neighbors_ids row).
  pose proof (tier_ids_length_pos k desc shelf Hk) as Hlen.
  pose proof (tier_ids_NoDup k desc shelf) as Hnd.
  split.
  - rewrite length_app in *.
    pose proof (hydrate_tier_length (books_df w) SRC_DESC (tier1_ids k desc)).
    pose proof (hydrate_tier_length (books_df w) SRC_SHELF (tier2_ids k desc shelf)).
    lia.
  - rewrite fmap_app, !hydrate_tier_ids, <-filter_app by done.
    by apply NoDup_filter.
Qed.

(** For [k <= 0] the first description neighbour still comes back. *)
Lemma fuse_nonpos w q k row :
  NoDup (book_id <$> books_df w) →
  lookup_book (books_df w) q = Some row →
  k ≤ 0 →
  fuse_neighbors_streamlit q k w =
  (Ok (hydrate_tier (books_df w) SRC_DESC
         (take 1 (fresh_ids ∅ (top_desc_neighbors_ids row)))), w).
Proof.
  intros Hdf Hrow Hk. rewrite (fuse_spec w q k row) by done.
  unfold tier2_ids, tier1_ids.
  replace (quota k 0) with 1%nat by (unfold quota; lia).
  rewrite decide_False by lia. by rewrite app_nil_r.
Qed.

Example scenario_abcde :
  fuse_neighbors_streamlit 1 3 world_abcde =
  (Ok [ fused_row SRC_DESC (book 2 "B" 20 [] []);
        fused_row SRC_DESC (book 3 "C" 30 [] []);
        fused_row SRC_SHELF (book 4 "D" 40 [] []) ], world_abcde).
Proof. by_eval. Qed.

(** The second loop is guarded before it starts: with [k = 0] and no
    description neighbours nothing is returned. *)
Example shelf_tier_respects_zero :
  fuse_neighbors_streamlit 1 0 world_shelf_only = (Ok [], world_shelf_only).
Proof. by_eval. Qed.

(** ** The claims on fusion *)

(** C1: for every k >= 0, [fuse] returns at most k rows without repeated
    ids.  The code breaks this at k = 0: the first loop tests the length
    only after appending, so book 1 of the sample catalog gets one
    recommendation although none was asked for. *)
Theorem fuse_zero_returns_one :
  fuse_neighbors_streamlit 1 0 world_abcde =
    (Ok [fused_row SRC_DESC (book 2 "B" 20 [] [])], world_abcde)
  ∧ ¬ (Z.of_nat (length [fused_row SRC_DESC (book 2 "B" 20 [] [])]) ≤ 0).
Proof. split; [by_eval|simpl; lia]. Qed.

(** C2, as stated: a book with at least k distinct neighbour ids gets
    exactly k recommendations.  Book 1 of [catalog_dangling] has two
    distinct neighbour ids, neither with a catalog row, and [fuse] at
    k = 2 returns nothing. *)
Lemma fuse_exactly_k_counterexample :
  lookup_book (books_df world_dangling) 1 = Some (book 1 "A" 10 [2; 3] [])
  ∧ 1 ≤ 2
  ∧ 2 ≤ Z.of_nat (size (list_to_set ([2; 3] ++ []) : gset Z))
  ∧ fuse_neighbors_streamlit 1 2 world_dangling = (Ok [], world_dangling)
  ∧ Z.of_nat (length (@nil FusedRow)) ≠ 2.
Proof. split_and!; by_eval. Qed.

(** C2, amended: in a catalog with unique ids, a book with at least k
    distinct neighbour ids (k >= 1) gets exactly k recommendations provided
    every id the two loops select has a catalog row. *)
Theorem fuse_exactly_k w q k row :
  NoDup (book_id <$> books_df w) →
  lookup_book (books_df w) q = Some row →
  1 ≤ k →
  k ≤ Z.of_nat (size (list_to_set (top_desc_neighbors_ids row
                                     ++ top_shelf_neighbors_ids row) : gset Z)) →
  Forall (λ bid, bid ∈ book_id <$> books_df w)
         (fused_recommendations_ids
            (fill_both k (top_desc_neighbors_ids row)
                         (top_shelf_neighbors_ids row))) →
  ∃ out, fuse_neighbors_streamlit q k w = (Ok out, w) ∧
         Z.of_nat (length out) = k.
Proof.
  intros Hdf Hrow Hk Hsize Hall. eexists. split; [by apply fuse_spec|].
  set (desc := top_desc_neighbors_ids row) in *.
  set (shelf := top_shelf_neighbors_ids row) in *.
  pose proof (tier_ids_length_pos k desc shelf Hk) as Hlen.
  rewrite fill_both_spec in Hall. simpl in Hall.
  apply Forall_app in Hall as [H1 H2].
  rewrite length_app, !hydrate_tier_full by done.
  rewrite length_app in Hlen. lia.
Qed.

Lemma fuse_exactly_k_witness :
  ∃ out, fuse_neighbors_streamlit 1 3 world_abcde = (Ok out, world_abcde) ∧
         Z.of_nat (length out) = 3.
Proof.
  apply (fuse_exactly_k world_abcde 1 3 (book 1 "A" 10 [2; 3] [3; 4; 5])).
  - compute_done.
  - by_eval.
  - lia.
  - by_eval.
  - compute_done.
Defined.

(** C3: the rows come back in the order in which the two loops appended
    their ids (description tier first, then shelf tier), so every row
    tagged Description stands before every row tagged Popular Shelves. *)
Theorem fuse_preserves_fill_order w q k row :
  NoDup (book_id <$> books_df w) →
  lookup_book (books_df w) q = Some row →
  ∃ out,
    fuse_neighbors_streamlit q k w = (Ok out, w) ∧
    f_book_id <$> out =
      filter (λ bid, bid ∈ book_id <$> books_df w)
        (fused_recommendations_ids
           (fill_both k (top_desc_neighbors_ids row)
                        (top_shelf_neighbors_ids row))) ∧
    ∀ i j ri rj,
      out !! i = Some ri → out !! j = Some rj →
      f_source ri = Some SRC_DESC → f_source rj = Some SRC_SHELF →
      (i < j)%nat.
Proof.
  intros Hdf Hrow. eexists. split; [by apply fuse_spec|].
  set (df := books_df w).
  set (t1 := tier1_ids k (top_desc_neighbors_ids row)).
  set (t2 := tier2_ids k (top_desc_neighbors_ids row) (top_shelf_neighbors_ids row)).
  split.
  - rewrite fill_both_spec. simpl. fold t1 t2.
    by rewrite fmap_app, !hydrate_tier_ids, filter_app.
  - intros i j ri rj Hi Hj Hsi Hsj.
    apply lookup_app_Some in Hi as [Hi|[_ Hi]].
    + apply lookup_app_Some in Hj as [Hj|[Hj _]].
      * apply list_elem_of_lookup_2, hydrate_tier_source in Hj.
        rewrite Hsj in Hj. by inversion Hj.
      * apply lookup_lt_Some in Hi. lia.
    + apply list_elem_of_lookup_2, hydrate_tier_source in Hi.
      rewrite Hsi in Hi. by inversion Hi.
Qed.

Lemma fuse_preserves_fill_order_witness :
  ∃ out,
    fuse_neighbors_streamlit 1 3 world_abcde = (Ok out, world_abcde) ∧
    f_book_id <$> out =
      filter (λ bid, bid ∈ book_id <$> books_df world_abcde)
        (fused_recommendations_ids (fill_both 3 [2; 3] [3; 4; 5])) ∧
    ∀ i j ri rj,
      out !! i = Some ri → out !! j = Some rj →
      f_source ri = Some SRC_DESC → f_source rj = Some SRC_SHELF →
      (i < j)%nat.
Proof.
  apply (fuse_preserves_fill_order world_abcde 1 3 (book 1 "A" 10 [2; 3] [3; 4; 5])).
  - compute_done.
  - by_eval.
Defined.

(** C4: on an id absent from the catalog, for every k, [fuse] returns the
    empty sequence and one not-found warning, raises nothing, and leaves
    the catalog as it was. *)
Theorem fuse_unknown_id w q k :
  q ∉ book_id <$> books_df w →
  ∃ w',
    fuse_neighbors_streamlit q k w = (Ok [], w') ∧
    ui w' = ui w ++ [st_warning (not_found_msg q)] ∧
    books_df w' = books_df w ∧
    db_books w' = db_books w.
Proof. intros Hq. eexists. split; [by apply fuse_absent|done]. Qed.

Lemma fuse_unknown_id_witness :
  ∃ w',
    fuse_neighbors_streamlit 9 3 world_abcde = (Ok [], w') ∧
    ui w' = ui world_abcde ++ [st_warning (not_found_msg 9)] ∧
    books_df w' = books_df world_abcde ∧
    db_books w' = db_books world_abcde.
Proof.
  apply (fuse_unknown_id world_abcde 9 3).
  compute_done.
Defined.

(** C5: when some id selected by the loops has no catalog row, [fuse]
    leaves those ids out without a message or an exception and returns the
    rows of the remaining ids in fill order. *)
Theorem fuse_skips_unresolvable w q k row :
  NoDup (book_id <$> books_df w) →
  lookup_book (books_df w) q = Some row →
  Exists (λ bid, bid ∉ book_id <$> books_df w)
         (fused_recommendations_ids
            (fill_both k (top_desc_neighbors_ids row)
                         (top_shelf_neighbors_ids row))) →
  ∃ out,
    fuse_neighbors_streamlit q k w = (Ok out, w) ∧
    f_book_id <$> out =
      filter (λ bid, bid ∈ book_id <$> books_df w)
        (fused_recommendations_ids
           (fill_both k (top_desc_neighbors_ids row)
                        (top_shelf_neighbors_ids row))) ∧
    (length out <
       length (fused_recommendations_ids
                 (fill_both k (top_desc_neighbors_ids row)
                              (top_shelf_neighbors_ids row))))%nat ∧
    ∀ x, x ∈ out → ∃ r src, r ∈ books_df w ∧ x = fused_row src r.
Proof.
  intros Hdf Hrow Hex. eexists. split; [by apply fuse_spec|].
  assert (f_book_id <$>
            hydrate_tier (books_df w) SRC_DESC
              (tier1_ids k (top_desc_neighbors_ids row))
            ++ hydrate_tier (books_df w) SRC_SHELF
                 (tier2_ids k (top_desc_neighbors_ids row)
                              (top_shelf_neighbors_ids row))
          = filter (λ bid, bid ∈ book_id <$> books_df w)
              (fused_recommendations_ids
                 (fill_both k (top_desc_neighbors_ids row)
                              (top_shelf_neighbors_ids row)))) as Hids.
  { rewrite fill_both_spec. simpl.
    by rewrite fmap_app, !hydrate_tier_ids, filter_app. }
  split_and!; [done| |].
  - rewrite <-(length_fmap f_book_id), Hids.
    by apply filter_resolvable_shorter.
  - intros x [Hx|Hx]%elem_of_app;
      apply list_elem_of_omap in Hx as (bid & _ & Hx);
      destruct (lookup_book (books_df w) bid) as [r|] eqn:Hl; simplify_eq/=;
      apply lookup_book_Some in Hl as [Hin _]; eauto.
Qed.

Lemma fuse_skips_unresolvable_witness :
  ∃ out,
    fuse_neighbors_streamlit 1 3 world_partial = (Ok out, world_partial) ∧
    f_book_id <$> out =
      filter (λ bid, bid ∈ book_id <$> books_df world_partial)
        (fused_recommendations_ids (fill_both 3 [7; 2] [3])) ∧
    (length out < length (fused_recommendations_ids (fill_both 3%Z [7; 2]%Z [3]%Z)))%nat ∧
    ∀ x, x ∈ out → ∃ r src, r ∈ books_df world_partial ∧ x = fused_row src r.
Proof.
  apply (fuse_skips_unresolvable world_partial 1 3 (book 1 "A" 10 [7; 2] [3])).
  - compute_done.
  - by_eval.
  - compute_done.
Defined.

Example fuse_partial_rows :
  fuse_neighbors_streamlit 1 3 world_partial =
  (Ok [ fused_row SRC_DESC (book 2 "B" 20 [] []);
        fused_row SRC_SHELF (book 3 "C" 30 [] []) ], world_partial).
Proof. by_eval. Qed.

(** ** Sorting commutes with renaming *)

Section merge_sort_fmap.
Context {A B : Type} (R1 : relation A) (R2 : relation B).
Context `{∀ x y, Decision (R1 x y)} `{∀ x y, Decision (R2 x y)}.
Context (f : A → B) (HR : ∀ x y, R1 x y ↔ R2 (f x) (f y)).

Local Abbreviation on_stack :=
  (fmap (M:=list) (fmap (M:=option) (fmap (M:=list) f))).

Lemma list_merge_fmap l1 l2 :
  f <$> list_merge R1 l1 l2 = list_merge R2 (f <$> l1) (f <$> l2).
Proof using HR.
  revert l2. induction l1 as [|x1 l1 IH1]; intros l2.
  - by rewrite fmap_nil, !list_merge_nil_l.
  - induction l2 as [|x2 l2 IH2].
    + by rewrite fmap_nil, !list_merge_nil_r.
    + rewrite list_merge_cons, !fmap_cons, list_merge_cons.
      destruct (decide (R1 x1 x2)) as [Hr|Hr],
               (decide (R2 (f x1) (f x2))) as [Hr'|Hr'];
        try (exfalso; apply HR in Hr || apply HR in Hr'; done).
      * by rewrite fmap_cons, IH1.
      * by rewrite fmap_cons, IH2.
Qed.

Lemma merge_list_to_stack_fmap st l :
  on_stack (merge_list_to_stack R1 st l) =
  merge_list_to_stack R2 (on_stack st) (f <$> l).
Proof using HR.
  revert l. induction st as [|[l'|] st IH]; intros l; csimpl; [done| |done].
  by rewrite IH, list_merge_fmap.
Qed.

Lemma merge_stack_fmap st :
  f <$> merge_stack R1 st = merge_stack R2 (on_stack st).
Proof using HR.
  induction st as [|[l'|] st IH]; csimpl; [done| |done].
  by rewrite list_merge_fmap, IH.
Qed.

Lemma merge_sort_aux_fmap st l :
  f <$> merge_sort_aux R1 st l =
  merge_sort_aux R2 (on_stack st) (f <$> l).
Proof using HR.
  revert st. induction l as [|x l IH]; intros st; csimpl.
  - apply merge_stack_fmap.
  - by rewrite IH, merge_list_to_stack_fmap.
Qed.

Lemma merge_sort_fmap l :
  f <$> merge_sort R1 l = merge_sort R2 (f <$> l).
Proof using HR. apply merge_sort_aux_fmap. Qed.
End merge_sort_fmap.

(** ** The query string *)

Lemma string_app_cons c (s t : string) : String c s +:+ t = String c (s +:+ t).
Proof. reflexivity. Qed.

Lemma string_app_nil_r (s : string) : s +:+ EmptyString = s.
Proof.
  induction s as [|c s IH]; [done|]. by rewrite string_app_cons, IH.
Qed.

Lemma string_app_snoc (buf : string) c (s : string) :
  snoc_char buf c +:+ s = buf +:+ String c s.
Proof.
  unfold snoc_char. induction buf as [|b buf IH]; [done|].
  by rewrite !string_app_cons, IH.
Qed.

Lemma dquote_not_nul : is_nul dquote = false.
Proof. done. Qed.

(** Inside the quotes a query without quote or NUL is read to its end as
    one string. *)
Lemma fts5_lex_in_string buf q :
  quote_free q →
  fts5_lex_go (InString buf) (q +:+ String dquote EmptyString) =
  Tokens [FTS5_STRING (buf +:+ q)].
Proof.
  revert buf. induction q as [|c q IH]; intros buf Hq.
  - by rewrite string_app_nil_r.
  - simpl in Hq. apply andb_True in Hq as [Hc Hq].
    apply andb_True in Hc as [Hdq Hnul].
    apply negb_True, Is_true_false in Hdq.
    apply negb_True, Is_true_false in Hnul.
    rewrite <-(string_app_snoc buf c q), string_app_cons. simpl.
    rewrite Hnul, Hdq. by apply IH.
Qed.

Lemma fts5_lex_quote_free q :
  quote_free q → fts5_lex (fts5_query_str q) = Tokens [FTS5_STRING q].
Proof.
  intros Hq. unfold fts5_lex, fts5_query_str.
  change (fts5_lex_go (InString EmptyString)
            (q +:+ String dquote EmptyString) = Tokens [FTS5_STRING q]).
  by rewrite fts5_lex_in_string.
Qed.

Example fts5_lex_injection :
  fts5_lex (fts5_query_str (String "x" (String dquote (" OR " +:+ String dquote "y"))))
  = Tokens [FTS5_STRING "x"; FTS5_OR; FTS5_STRING "y"].
Proof. by_eval. Qed.

(** ** A book that lists itself *)

Lemma hydrate_tier_elem df src ids bid r :
  bid ∈ ids → lookup_book df bid = Some r →
  fused_row src r ∈ hydrate_tier df src ids.
Proof.
  intros Hin Hl. unfold hydrate_tier. apply list_elem_of_omap.
  exists bid. split; [done|]. by rewrite Hl.
Qed.

Lemma fresh_ids_cons_fresh (seen : gset Z) x l :
  x ∉ seen → fresh_ids seen (x :: l) = x :: fresh_ids ({[x]} ∪ seen) l.
Proof. intros Hx. simpl. by case_decide. Qed.

(** C9, as stated: whenever the description list of a book contains the
    book's own id, [fuse] with k >= 1 recommends the book itself.  Book 1
    of [catalog_self] lists 2 and then itself; at k = 1 only book 2 is
    returned. *)
Lemma fuse_self_counterexample :
  lookup_book (books_df world_self) 1 = Some (book 1 "A" 10 [2; 1] [])
  ∧ 1 ∈ [2; 1]
  ∧ 1 ≤ 1
  ∧ fuse_neighbors_streamlit 1 1 world_self =
      (Ok [fused_row SRC_DESC (book 2 "B" 20 [] [])], world_self)
  ∧ 1 ∉ f_book_id <$> [fused_row SRC_DESC (book 2 "B" 20 [] [])].
Proof. split_and!; [by_eval|compute_done|lia|by_eval|compute_done]. Qed.

(** C9, amended: nothing keeps a book's own id out of its neighbour
    lists.  In a catalog with unique ids, when the description list
    contains the book's own id with fewer than k distinct ids before it,
    [fuse] returns the book itself tagged Description; when the own id is
    first in the list, it is the top row. *)
Theorem fuse_emits_self w q k row pre post :
  NoDup (book_id <$> books_df w) →
  lookup_book (books_df w) q = Some row →
  top_desc_neighbors_ids row = pre ++ q :: post →
  Z.of_nat (size (list_to_set pre : gset Z)) < k →
  ∃ out,
    fuse_neighbors_streamlit q k w = (Ok out, w) ∧
    fused_row SRC_DESC row ∈ out ∧
    (pre = [] → head out = Some (fused_row SRC_DESC row)).
Proof.
  intros Hdf Hrow Hdesc Hk. eexists. split; [by apply fuse_spec|].
  assert (1 ≤ k) as Hk1 by lia.
  unfold tier1_ids at 1. rewrite Hdesc, (quota_pos k 0) by lia.
  rewrite Nat.sub_0_r, fresh_ids_app, take_app.
  pose proof (fresh_ids_length pre) as Hlen.
  set (d := fresh_ids ∅ pre) in *.
  rewrite (take_ge d) by lia.
  split.
  - apply elem_of_app. left. apply (hydrate_tier_elem _ _ _ q); [|done].
    destruct (decide (q ∈ d)) as [Hin|Hout]; [set_solver|].
    apply elem_of_app. right.
    rewrite fresh_ids_cons_fresh by set_solver.
    destruct (Z.to_nat k - length d)%nat as [|n] eqn:Hn; [lia|]. simpl. left.
  - intros ->. rewrite app_nil_l. unfold tier1_ids.
    rewrite (quota_pos k 0), fresh_ids_cons_fresh by (lia || set_solver).
    destruct (Z.to_nat k - 0)%nat as [|n] eqn:Hn; [lia|]. simpl.
    unfold hydrate_tier. simpl. by rewrite Hrow.
Qed.

Lemma fuse_emits_self_witness :
  ∃ out,
    fuse_neighbors_streamlit 1 1 world_self_first = (Ok out, world_self_first) ∧
    fused_row SRC_DESC (book 1 "A" 10 [1; 2] []) ∈ out ∧
    (@nil Z = [] → head out = Some (fused_row SRC_DESC (book 1 "A" 10 [1; 2] []))).
Proof.
  apply (fuse_emits_self world_self_first 1 1 (book 1 "A" 10 [1; 2] []) [] [2]).
  - compute_done.
  - by_eval.
  - reflexivity.
  - compute_done.
Defined.

(** ** The resolver *)

Section database_facts.
Context `{!TitleIndex}.

Lemma order_by_limit_elem rows n r : r ∈ order_by_limit rows n → r ∈ rows.
Proof.
  intros Hr. destruct (order_by_limit_top rows n) as (rest & Hp & _).
  rewrite <-Hp. apply elem_of_app. by left.
Qed.

Lemma order_by_limit_nil n : order_by_limit [] n = [].
Proof.
  apply nil_length_inv. rewrite order_by_limit_length.
  case_decide; [done|]. apply Nat.min_0_r.
Qed.

(** [LIMIT 0] returns no row. *)
Lemma order_by_limit_zero rows : order_by_limit rows 0 = [].
Proof. apply nil_length_inv. by rewrite order_by_limit_length. Qed.

Lemma order_by_limit_nonempty rows n :
  rows ≠ [] → n ≠ 0 → order_by_limit rows n ≠ [].
Proof.
  intros Hrows Hn Hnil. apply (f_equal length) in Hnil.
  rewrite order_by_limit_length in Hnil.
  destruct rows as [|r rows]; [done|]. simpl in Hnil. case_decide; lia.
Qed.

Lemma selected_sorted rows n :
  StronglySorted more_rated (search_row <$> order_by_limit rows n).
Proof.
  apply (StronglySorted_fmap _ ratings_ge); [done|].
  apply order_by_limit_sorted.
Qed.

Lemma selected_from rows n x :
  x ∈ search_row <$> order_by_limit rows n →
  ∃ r, r ∈ rows ∧ x = search_row r.
Proof.
  intros (r & -> & Hr)%list_elem_of_fmap. exists r. split; [|done].
  by eapply order_by_limit_elem.
Qed.

Lemma selected_length rows n :
  0 ≤ n →
  length (search_row <$> order_by_limit rows n)
  = Nat.min (Z.to_nat n) (length rows).
Proof.
  intros Hn. rewrite length_fmap, order_by_limit_length.
  by rewrite decide_False by lia.
Qed.
End database_facts.

Section resolver_facts.
Context `{!TitleIndex, !Similarity}.

Lemma resolve_spec_sorted db q k :
  StronglySorted more_rated (resolve_spec db q k).
Proof.
  unfold resolve_spec.
  destruct (phrase_search_spec db q k) eqn:Hp.
  - apply selected_sorted.
  - rewrite <-Hp. apply selected_sorted.
Qed.

Lemma resolve_spec_length db q k :
  0 ≤ k → Z.of_nat (length (resolve_spec db q k)) ≤ k.
Proof.
  intros Hk. unfold resolve_spec.
  destruct (phrase_search_spec db q k) eqn:Hp.
  - unfold fuzzy_fallback_spec. rewrite selected_length by done. lia.
  - rewrite <-Hp. unfold phrase_search_spec.
    rewrite selected_length by done. lia.
Qed.

Lemma fts5_match_quote_free q :
  quote_free q = true → fts5_match (fts5_query_str q) = Ok (phrase_hit q).
Proof.
  intros Hq. unfold fts5_match.
  by rewrite fts5_lex_quote_free by by rewrite Hq.
Qed.

(** The titles [process.extract] returns are the [limit] most similar
    ones, ties going to the earlier title. *)
Lemma extract_titles q titles k ms :
  extract q titles k = Ok ms →
  (λ m : string * Z * nat, m.1.1) <$> ms = top_similar q titles k.
Proof.
  unfold extract. case_decide; [done|]. intros [= <-].
  unfold top_similar. rewrite !fmap_take. f_equal.
  set (g := λ p : nat * string, (p.2, scorer q p.2, p.1)).
  assert (imap (λ i c, (c, scorer q c, i)) titles = g <$> imap pair titles)
    as -> by by rewrite fmap_imap.
  rewrite <-(merge_sort_fmap (more_similar q) score_before g) by done.
  by rewrite <-list_fmap_compose.
Qed.

Lemma extract_negative q titles k :
  k < 0 → extract q titles k = Raise RuntimeError.
Proof. intros Hk. unfold extract. by rewrite decide_True by done. Qed.

Lemma extract_returns q titles k :
  0 ≤ k → ∃ ms, extract q titles k = Ok ms.
Proof. intros Hk. unfold extract. rewrite decide_False by lia. eauto. Qed.

Lemma top_similar_length q titles k :
  length (top_similar q titles k) = Nat.min (Z.to_nat k) (length titles).
Proof.
  unfold top_similar.
  by rewrite length_fmap, length_take, merge_sort_Permutation, length_imap.
Qed.

Lemma top_similar_elem q titles k t :
  t ∈ top_similar q titles k → t ∈ titles.
Proof.
  unfold top_similar. intros (p & -> & Hp%subseteq_take)%list_elem_of_fmap.
  rewrite merge_sort_Permutation in Hp.
  apply elem_of_lookup_imap in Hp as (i & c & -> & Hc). simpl.
  by eapply list_elem_of_lookup_2.
Qed.

(** The body of the function, one library call after the other. *)
Lemma search_unfold q k w :
  search_books_streamlit q k w =
  match sql_fts (db_books w) (fts5_query_str q) k with
  | Raise e => (Raise e, w)
  | Ok (x :: xs) => (Ok (x :: xs), w)
  | Ok [] =>
      match extract q (title <$> db_books w) k with
      | Raise e => (Raise e, w)
      | Ok ms =>
          (sql_title_in (db_books w)
             ((λ m : string * Z * nat, m.1.1) <$> ms) k, w)
      end
  end.
Proof.
  unfold search_books_streamlit, mbind, M_bind, read_db_books, call.
  destruct (sql_fts _ _ _) as [[|x xs]|e]; [|done|done].
  by destruct (extract _ _ _).
Qed.

Lemma search_overflow q k w :
  ¬ in_int64 k → search_books_streamlit q k w = (Raise OverflowError, w).
Proof.
  intros Hk. rewrite search_unfold. unfold sql_fts.
  by rewrite decide_False by done.
Qed.

Lemma search_raises q k w e :
  in_int64 k → k ≠ 0 →
  fts5_match (fts5_query_str q) = Raise e →
  search_books_streamlit q k w = (Raise e, w).
Proof.
  intros Hk Hk0 Hm. rewrite search_unfold. unfold sql_fts.
  by rewrite decide_True, decide_False, Hm by done.
Qed.

Lemma search_phrase q k w hit :
  in_int64 k → k ≠ 0 →
  fts5_match (fts5_query_str q) = Ok hit →
  filter (λ r, hit r) (db_books w) ≠ [] →
  search_books_streamlit q k w =
  (Ok (search_row <$> order_by_limit (filter (λ r, hit r) (db_books w)) k), w).
Proof.
  intros Hk Hk0 Hm Hhit. rewrite search_unfold. unfold sql_fts.
  rewrite decide_True, decide_False, Hm by done.
  pose proof (order_by_limit_nonempty _ k Hhit Hk0) as Hne.
  by destruct (order_by_limit _ _).
Qed.

Lemma sql_fts_none db q k hit :
  in_int64 k →
  fts5_match (fts5_query_str q) = Ok hit →
  filter (λ r, hit r) db = [] →
  sql_fts db (fts5_query_str q) k = Ok [].
Proof.
  intros Hk Hm Hnone. unfold sql_fts. rewrite decide_True by done.
  case_decide; [done|]. by rewrite Hm, Hnone, order_by_limit_nil.
Qed.

(** What happens once the first [SELECT] has returned no row. *)
Lemma search_fallback q k w :
  sql_fts (db_books w) (fts5_query_str q) k = Ok [] →
  search_books_streamlit q k w =
  if decide (k < 0) then (Raise RuntimeError, w)
  else if decide (Nat.min (Z.to_nat k) (length (db_books w))
                  < max_variable_number)%nat
       then (Ok (fuzzy_fallback_spec (db_books w) q k), w)
       else (Raise (OperationalError "too many SQL variables"), w).
Proof.
  intros Hfts. rewrite search_unfold, Hfts.
  assert (in_int64 k) as Hk.
  { unfold sql_fts in Hfts. by case_decide. }
  case_decide as Hneg; [by rewrite extract_negative|].
  destruct (extract_returns q (title <$> db_books w) k) as [ms Hms]; [lia|].
  rewrite Hms, (extract_titles _ _ _ _ Hms). unfold sql_title_in.
  rewrite top_similar_length, length_fmap.
  case_decide; [|by rewrite decide_False by lia].
  by rewrite decide_True, decide_True by (done || lia).
Qed.

(** With the limit 0 nothing is looked at and nothing returned. *)
Lemma search_zero q w : search_books_streamlit q 0 w = (Ok [], w).
Proof.
  assert (sql_fts (db_books w) (fts5_query_str q) 0 = Ok []) as Hfts by done.
  rewrite (search_fallback _ _ _ Hfts).
  rewrite decide_False, decide_True.
  - unfold fuzzy_fallback_spec. by rewrite order_by_limit_zero.
  - pose proof max_variable_number_two. simpl. lia.
  - lia.
Qed.

Lemma resolve_spec_zero db q : resolve_spec db q 0 = [].
Proof.
  unfold resolve_spec, phrase_search_spec, fuzzy_fallback_spec.
  by rewrite !order_by_limit_zero.
Qed.

Lemma search_quote_free q k w :
  quote_free q = true → 0 ≤ k < 2 ^ 63 →
  (phrase_search_spec (db_books w) q k = [] →
   (Nat.min (Z.to_nat k) (length (db_books w)) < max_variable_number)%nat) →
  search_books_streamlit q k w = (Ok (resolve_spec (db_books w) q k), w).
Proof.
  intros Hq Hk Hvars.
  destruct (decide (k = 0)) as [->|Hk0].
  { by rewrite search_zero, resolve_spec_zero. }
  assert (in_int64 k) as Hin by (unfold in_int64; lia).
  pose proof (fts5_match_quote_free q Hq) as Hm.
  unfold resolve_spec, phrase_search_spec in *.
  destruct (filter (λ r, phrase_hit q r) (db_books w)) as [|r rows] eqn:Hf.
  - rewrite order_by_limit_nil in *.
    rewrite search_fallback by by eapply sql_fts_none.
    by rewrite decide_False, decide_True by (lia || auto).
  - rewrite (search_phrase q k w (phrase_hit q)), Hf by (done || by rewrite Hf).
    assert (order_by_limit (r :: rows) k ≠ []) as Hne
      by by apply order_by_limit_nonempty.
    by destruct (order_by_limit (r :: rows) k).
Qed.

(** With a limit that is not 0 and a catalog that is not empty the
    fallback finds something. *)
Lemma fallback_nonempty q k db :
  1 ≤ k → db ≠ [] → fuzzy_fallback_spec db q k ≠ [].
Proof.
  intros Hk Hdb.
  destruct (top_similar q (title <$> db) k) as [|t ts] eqn:Htop.
  { apply (f_equal length) in Htop.
    rewrite top_similar_length, length_fmap in Htop.
    destruct db; simpl in *; [done|lia]. }
  assert (t ∈ title <$> db) as Hin.
  { apply (top_similar_elem q _ k). rewrite Htop. left. }
  apply list_elem_of_fmap in Hin as (r & Hr & Hin).
  unfold fuzzy_fallback_spec. rewrite Htop. intros Hnil%fmap_nil_inv.
  revert Hnil. apply order_by_limit_nonempty; [|lia].
  intros Hnil.
  assert (r ∈ filter (λ r, title r ∈ t :: ts) db) as Hf.
  { apply list_elem_of_filter. split; [|done]. rewrite <-Hr. left. }
  rewrite Hnil in Hf. by apply elem_of_nil in Hf.
Qed.

(** The ways a call can end. *)
Lemma search_cases q k w :
  (∃ e, search_books_streamlit q k w = (Raise e, w))
  ∨ (∃ rows,
        rows ⊆ db_books w ∧
        search_books_streamlit q k w =
          (Ok (search_row <$> order_by_limit rows k), w)).
Proof.
  destruct (decide (in_int64 k)) as [Hk|Hk];
    [|left; eexists; by apply search_overflow].
  destruct (decide (k = 0)) as [->|Hk0].
  { right. exists []. split; [apply list_subseteq_nil|].
    by rewrite search_zero, order_by_limit_nil. }
  destruct (fts5_match (fts5_query_str q)) as [hit|e] eqn:Hm;
    [|left; eexists; by apply search_raises].
  destruct (filter (λ r, hit r) (db_books w)) as [|r0 rows0] eqn:Hf.
  - rewrite search_fallback by by eapply sql_fts_none.
    repeat case_decide; [by eauto| |by eauto].
    right. eexists. split; [|done].
    intros r Hr. by apply list_elem_of_filter in Hr as [_ ?].
  - right. exists (filter (λ r, hit r) (db_books w)). split.
    + intros r Hr. by apply list_elem_of_filter in Hr as [_ ?].
    + apply search_phrase; [done..|]. by rewrite Hf.
Qed.
End resolver_facts.

(** ** The claims on search *)

(** C6, as stated: for every query and every limit k the search is the
    phrase search followed, only when empty, by the fuzzy fallback.  With
    the limit 2^63 the first statement cannot bind its limit and raises
    OverflowError before anything is searched; with the limit -1 and a
    query that no title contains, [process.extract] raises RuntimeError,
    so the fallback gives no result. *)
Lemma search_two_phase_counterexample :
  @search_books_streamlit toy_index toy_similarity "Dune" (2 ^ 63) world_dune
    = (Raise OverflowError, world_dune)
  ∧ @search_books_streamlit toy_index toy_similarity "Dune" (2 ^ 63) world_dune
    ≠ (Ok (@resolve_spec toy_index toy_similarity db_dune "Dune" (2 ^ 63)),
       world_dune)
  ∧ @phrase_search_spec toy_index db_dune "Dunes" (-1) = []
  ∧ @search_books_streamlit toy_index toy_similarity "Dunes" (-1) world_dune
    = (Raise RuntimeError, world_dune)
  ∧ @search_books_streamlit toy_index toy_similarity "Dunes" (-1) world_dune
    ≠ (Ok (@resolve_spec toy_index toy_similarity db_dune "Dunes" (-1)),
       world_dune).
Proof.
  assert (@search_books_streamlit toy_index toy_similarity "Dune" (2 ^ 63)
            world_dune = (Raise OverflowError, world_dune)) as Hbig.
  { apply search_overflow. unfold in_int64. lia. }
  split_and!; [done|by rewrite Hbig|by_eval..].
Qed.

(** C6, amended: for every query without a double quote or NUL, every
    limit 0 <= k < 2^63 and a database that accepts the placeholders of
    the second statement when it is needed (one per matched title and one
    for the limit), the search first runs the whole query as one phrase
    against the title index, most rated first, cut to k; only when that
    finds nothing does it take the k titles most similar to the query
    (of equally similar ones the earlier in the table), fetch their
    records again, order them most rated first and cut to k. *)
Theorem search_two_phase `{!TitleIndex, !Similarity} q k w :
  quote_free q = true →
  0 ≤ k < 2 ^ 63 →
  (phrase_search_spec (db_books w) q k = [] →
   (Nat.min (Z.to_nat k) (length (db_books w)) < max_variable_number)%nat) →
  search_books_streamlit q k w = (Ok (resolve_spec (db_books w) q k), w)
  ∧ (phrase_search_spec (db_books w) q k ≠ [] →
     resolve_spec (db_books w) q k = phrase_search_spec (db_books w) q k)
  ∧ (phrase_search_spec (db_books w) q k = [] →
     resolve_spec (db_books w) q k = fuzzy_fallback_spec (db_books w) q k)
  ∧ StronglySorted more_rated (resolve_spec (db_books w) q k)
  ∧ Z.of_nat (length (resolve_spec (db_books w) q k)) ≤ k.
Proof.
  intros Hq Hk Hvars. split; [by apply search_quote_free|].
  split_and!;
    [| |apply resolve_spec_sorted|apply resolve_spec_length; lia];
    unfold resolve_spec;
    by destruct (phrase_search_spec (db_books w) q k).
Qed.

Lemma search_two_phase_witness :
  @search_books_streamlit toy_index toy_similarity "Dunes" 2 world_dune
    = (Ok (@resolve_spec toy_index toy_similarity (db_books world_dune) "Dunes" 2),
       world_dune)
  ∧ (@phrase_search_spec toy_index (db_books world_dune) "Dunes" 2 ≠ [] →
     @resolve_spec toy_index toy_similarity (db_books world_dune) "Dunes" 2
     = @phrase_search_spec toy_index (db_books world_dune) "Dunes" 2)
  ∧ (@phrase_search_spec toy_index (db_books world_dune) "Dunes" 2 = [] →
     @resolve_spec toy_index toy_similarity (db_books world_dune) "Dunes" 2
     = @fuzzy_fallback_spec toy_index toy_similarity (db_books world_dune) "Dunes" 2)
  ∧ StronglySorted more_rated
      (@resolve_spec toy_index toy_similarity (db_books world_dune) "Dunes" 2)
  ∧ Z.of_nat (length (@resolve_spec toy_index toy_similarity
                        (db_books world_dune) "Dunes" 2)) ≤ 2.
Proof.
  apply (@search_two_phase toy_index toy_similarity "Dunes" 2 world_dune).
  - reflexivity.
  - lia.
  - intros _. vm_compute. lia.
Defined.

Example search_dunes :
  @search_books_streamlit toy_index toy_similarity "Dunes" 2 world_dune =
  (Ok [search_row (book 1 "Dune" 500 [] []);
       search_row (book 2 "Dune Messiah" 300 [] [])], world_dune).
Proof. by_eval. Qed.

(** Three titles equally close to the query and a limit of two: the
    fuzzy matching keeps the first two of the table, which then come back
    most rated first. *)
Example search_equally_similar :
  @search_books_streamlit toy_index toy_similarity "abcd" 2 world_ties =
  (Ok [search_row (book 2 "abcy" 20 [] []);
       search_row (book 1 "abcx" 10 [] [])], world_ties).
Proof. by_eval. Qed.

(** Rows with equal counts come back in table order from the toy
    database. *)
Example search_equally_rated :
  @search_books_streamlit toy_index toy_similarity "Dune" 2 world_equal =
  (Ok [search_row (book 1 "Dune" 7 [] []);
       search_row (book 2 "Dune II" 7 [] [])], world_equal).
Proof. by_eval. Qed.

(** A database that takes two placeholders only cannot run the second
    statement for two matched titles. *)
Example search_too_many_variables :
  @search_books_streamlit small_index toy_similarity "Dunes" 2 world_dune =
  (Raise (OperationalError "too many SQL variables"), world_dune).
Proof. by_eval. Qed.

(** C7: every query, also one with a double quote in it, is quoted so
    that it is matched literally as one phrase and never rejected.  The
    code wraps the query in quotes without doubling the quotes inside it:
    the query made of a, a double quote and b reaches the index as a
    string, a bareword and an unclosed string, and with any limit that can
    be bound and is not 0 the search raises. *)
Theorem search_quote_in_query_raises `{!TitleIndex, !Similarity} k w :
  in_int64 k →
  k ≠ 0 →
  fts5_lex (fts5_query_str query_with_quote) = LexError "unterminated string"
  ∧ search_books_streamlit query_with_quote k w
    = (Raise (OperationalError "unterminated string"), w).
Proof. intros Hk Hk0. split; [done|]. by apply search_raises. Qed.

Lemma search_quote_in_query_raises_witness :
  fts5_lex (fts5_query_str query_with_quote) = LexError "unterminated string"
  ∧ @search_books_streamlit toy_index toy_similarity query_with_quote 5 world_dune
    = (Raise (OperationalError "unterminated string"), world_dune).
Proof.
  apply (@search_quote_in_query_raises toy_index toy_similarity 5 world_dune).
  - compute_done.
  - lia.
Defined.

(** C8, as stated: a query whose phrase search matches nothing goes on to
    the fuzzy phase and gets back at most k candidates, without an
    exception.  At the limit -1 the phrase search for a title that is not
    in the table matches nothing and the fuzzy phase raises
    RuntimeError. *)
Lemma search_falls_through_counterexample :
  @fts5_match toy_index (fts5_query_str "Dunes")
    = Ok (λ r, occurs_in "Dunes" (title r))
  ∧ filter (λ r : BookRecord, occurs_in "Dunes" (title r)) (db_books world_dune) = []
  ∧ @search_books_streamlit toy_index toy_similarity "Dunes" (-1) world_dune
    = (Raise RuntimeError, world_dune).
Proof. split_and!; by_eval. Qed.

(** C8, amended: for a limit 0 <= k < 2^63 and a database that accepts
    the placeholders of the second statement, a query whose phrase search
    matches nothing goes on to the fuzzy phase and gets back the fallback's
    candidates, at most k of them, most rated first, without an exception;
    with nothing to find in either phase the result is the empty sequence,
    which the button handler reports with a warning message, not an
    error. *)
Theorem search_falls_through `{!TitleIndex, !Similarity} q k w hit :
  0 ≤ k < 2 ^ 63 →
  (Nat.min (Z.to_nat k) (length (db_books w)) < max_variable_number)%nat →
  fts5_match (fts5_query_str q) = Ok hit →
  filter (λ r, hit r) (db_books w) = [] →
  ∃ out,
    search_books_streamlit q k w = (Ok out, w) ∧
    out = fuzzy_fallback_spec (db_books w) q k ∧
    Z.of_nat (length out) ≤ k ∧
    StronglySorted more_rated out ∧
    (db_books w = [] → out = []) ∧
    (k = 5 → out = [] → q ≠ EmptyString →
     on_get_recommendations q w =
     (Ok tt, mkWorld (db_books w) (books_df w)
                     (ui w ++ [st_warning (no_books_msg q)])
                     (mkSession [] None None))).
Proof.
  intros Hk Hvars Hm Hnone.
  assert (search_books_streamlit q k w
          = (Ok (fuzzy_fallback_spec (db_books w) q k), w)) as Hrun.
  { rewrite search_fallback
      by (eapply sql_fts_none; [unfold in_int64; lia|done..]).
    by rewrite decide_False, decide_True by (lia || done). }
  exists (fuzzy_fallback_spec (db_books w) q k).
  split_and!; [done|done| | | |].
  - unfold fuzzy_fallback_spec. rewrite selected_length by lia. lia.
  - apply selected_sorted.
  - intros ->. unfold fuzzy_fallback_spec. simpl.
    by rewrite order_by_limit_nil.
  - intros -> Hout Hq. destruct q as [|c q]; [done|].
    unfold on_get_recommendations, mbind, M_bind.
    by rewrite Hrun, Hout.
Qed.

Lemma search_falls_through_witness :
  ∃ out,
    @search_books_streamlit toy_index toy_similarity "Dunes" 5 world_dune
      = (Ok out, world_dune) ∧
    out = @fuzzy_fallback_spec toy_index toy_similarity
            (db_books world_dune) "Dunes" 5 ∧
    Z.of_nat (length out) ≤ 5 ∧
    StronglySorted more_rated out ∧
    (db_books world_dune = [] → out = []) ∧
    (5 = 5 → out = [] → "Dunes" ≠ EmptyString →
     @on_get_recommendations toy_index toy_similarity "Dunes" world_dune =
     (Ok tt, mkWorld (db_books world_dune) (books_df world_dune)
                     (ui world_dune ++ [st_warning (no_books_msg "Dunes")])
                     (mkSession [] None None))).
Proof.
  apply (@search_falls_through toy_index toy_similarity "Dunes" 5 world_dune
           (λ r, occurs_in "Dunes" (title r))).
  - lia.
  - vm_compute. lia.
  - reflexivity.
  - reflexivity.
Defined.

Example no_matches_is_a_warning :
  @on_get_recommendations toy_index toy_similarity "zzz" world_empty =
  (Ok tt, mkWorld [] [] [st_warning (no_books_msg "zzz")] (mkSession [] None None)).
Proof. by_eval. Qed.

(** C10, as stated: with no phrase match and a catalog that is not empty
    the search returns at least one candidate.  At the limit 0 it returns
    none. *)
Lemma search_fallback_nonempty_counterexample :
  @fts5_match toy_index (fts5_query_str "Dunes") = Ok (λ r, occurs_in "Dunes" (title r))
  ∧ filter (λ r : BookRecord, occurs_in "Dunes" (title r)) (db_books world_dune) = []
  ∧ db_books world_dune ≠ []
  ∧ @search_books_streamlit toy_index toy_similarity "Dunes" 0 world_dune
    = (Ok [], world_dune).
Proof. split_and!; by_eval. Qed.

(** C10, amended: with no phrase match, a catalog that is not empty, a
    limit 1 <= k < 2^63 and a database that accepts the placeholders of
    the second statement, the search returns at least one candidate: the
    fallback keeps the k most similar titles whatever their score. *)
Theorem search_fallback_nonempty `{!TitleIndex, !Similarity} q k w hit :
  1 ≤ k < 2 ^ 63 →
  (Nat.min (Z.to_nat k) (length (db_books w)) < max_variable_number)%nat →
  fts5_match (fts5_query_str q) = Ok hit →
  filter (λ r, hit r) (db_books w) = [] →
  db_books w ≠ [] →
  ∃ out, search_books_streamlit q k w = (Ok out, w) ∧ out ≠ [].
Proof.
  intros Hk Hvars Hm Hnone Hdb.
  exists (fuzzy_fallback_spec (db_books w) q k). split.
  - rewrite search_fallback
      by (eapply sql_fts_none; [unfold in_int64; lia|done..]).
    by rewrite decide_False, decide_True by (lia || done).
  - apply fallback_nonempty; [lia|done].
Qed.

Lemma search_fallback_nonempty_witness :
  ∃ out, @search_books_streamlit toy_index toy_similarity "Dunes" 1 world_dune
           = (Ok out, world_dune) ∧ out ≠ [].
Proof.
  apply (@search_fallback_nonempty toy_index toy_similarity "Dunes" 1 world_dune
           (λ r, occurs_in "Dunes" (title r))).
  - lia.
  - vm_compute. lia.
  - reflexivity.
  - reflexivity.
  - discriminate.
Defined.

(** * Further properties *)

(** ** The fill loops *)

Lemma lookup_book_id df bid r : lookup_book df bid = Some r → book_id r = bid.
Proof.
  unfold lookup_book. intros H%head_Some_elem_of.
  by apply list_elem_of_filter in H as [? _].
Qed.

Lemma hydrate_tier_inv df src ids x :
  x ∈ hydrate_tier df src ids →
  ∃ r, f_book_id x ∈ ids ∧ lookup_book df (f_book_id x) = Some r ∧
       x = fused_row src r.
Proof.
  unfold hydrate_tier. intros (bid & Hbid & Hx)%list_elem_of_omap.
  destruct (lookup_book df bid) as [r|] eqn:Hl; simplify_eq/=.
  exists r. pose proof (lookup_book_id _ _ _ Hl) as Hid. simpl.
  rewrite Hid. done.
Qed.

Lemma tier1_ids_subseteq k desc x : x ∈ tier1_ids k desc → x ∈ desc.
Proof.
  unfold tier1_ids. intros Hx%subseteq_take.
  by apply fresh_ids_elem_of in Hx as [? _].
Qed.

(** The second loop only ever appends shelf ids that are not description
    ids: it runs only after the first loop has gone through the whole
    description list. *)
Lemma tier2_ids_shelf_only k desc shelf x :
  x ∈ tier2_ids k desc shelf → x ∈ shelf ∧ x ∉ desc.
Proof.
  unfold tier2_ids. case_decide as Hlt; [|by intros ?%elem_of_nil].
  intros Hx%subseteq_take. apply fresh_ids_elem_of in Hx as [Hs Hseen].
  split; [done|]. intros Hd. apply Hseen.
  apply elem_of_list_to_set. unfold tier1_ids in *.
  rewrite length_take in Hlt.
  rewrite take_ge by (unfold quota in *; lia).
  apply fresh_ids_elem_of. set_solver.
Qed.

Lemma tier_ids_pos k desc shelf :
  1 ≤ k →
  tier1_ids k desc = take (Z.to_nat k) (fresh_ids ∅ desc) ∧
  tier2_ids k desc shelf =
    take (Z.to_nat k - length (fresh_ids ∅ desc))
         (fresh_ids (list_to_set (fresh_ids ∅ desc)) shelf).
Proof.
  intros Hk. unfold tier2_ids, tier1_ids.
  rewrite (quota_pos k 0), Nat.sub_0_r by lia. split; [done|].
  set (d := fresh_ids ∅ desc). rewrite length_take.
  case_decide as Hlt.
  - assert (length d < Z.to_nat k)%nat by lia.
    rewrite (take_ge d) by lia. rewrite quota_pos by lia. f_equal. lia.
  - replace (Z.to_nat k - length d)%nat with 0%nat by lia. by rewrite take_0.
Qed.

(** X1: whatever k and the two lists are, the accumulators agree when the
    loops are over: no id twice, one tag per id, the set holds exactly the
    ids, and every id comes from one of the two lists. *)
Theorem fill_both_accumulators k desc shelf :
  NoDup (fused_recommendations_ids (fill_both k desc shelf))
  ∧ length (fused_recommendations_sources (fill_both k desc shelf))
    = length (fused_recommendations_ids (fill_both k desc shelf))
  ∧ added_ids_set (fill_both k desc shelf)
    = list_to_set (fused_recommendations_ids (fill_both k desc shelf))
  ∧ (∀ bid, bid ∈ fused_recommendations_ids (fill_both k desc shelf) →
            bid ∈ desc ++ shelf)
  ∧ (∀ src, src ∈ fused_recommendations_sources (fill_both k desc shelf) →
            src = SRC_DESC ∨ src = SRC_SHELF).
Proof.
  rewrite fill_both_spec. simpl. split_and!.
  - apply tier_ids_NoDup.
  - by rewrite !length_app, !length_replicate.
  - done.
  - intros bid [H1|H2]%elem_of_app; apply elem_of_app.
    + left. by eapply tier1_ids_subseteq.
    + right. by eapply tier2_ids_shelf_only.
  - intros src [H1|H2]%elem_of_app.
    + left. by apply elem_of_replicate in H1 as [? _].
    + right. by apply elem_of_replicate in H2 as [? _].
Qed.

(** ** Which rows come back *)

(** X2: a book without description neighbours gets its shelf neighbours,
    first occurrences in stored order, cut to k, all tagged Popular
    Shelves (and nothing for k <= 0). *)
Theorem fuse_shelf_only w q k row :
  NoDup (book_id <$> books_df w) →
  lookup_book (books_df w) q = Some row →
  top_desc_neighbors_ids row = [] →
  fuse_neighbors_streamlit q k w =
  (Ok (hydrate_tier (books_df w) SRC_SHELF
         (take (Z.to_nat k) (fresh_ids ∅ (top_shelf_neighbors_ids row)))), w).
Proof.
  intros Hdf Hrow Hdesc. rewrite (fuse_spec w q k row) by done.
  rewrite Hdesc. unfold tier2_ids, tier1_ids. simpl. rewrite take_nil. simpl.
  case_decide as Hlt.
  - rewrite (quota_pos k 0), Nat.sub_0_r by lia. done.
  - replace (Z.to_nat k) with 0%nat by lia. by rewrite take_0.
Qed.

Lemma fuse_shelf_only_witness :
  fuse_neighbors_streamlit 1 3 world_shelf_only =
  (Ok (hydrate_tier (books_df world_shelf_only) SRC_SHELF
         (take (Z.to_nat 3) (fresh_ids ∅ [2]))), world_shelf_only).
Proof.
  apply (fuse_shelf_only world_shelf_only 1 3 (book 1 "A" 10 [] [2])).
  - compute_done.
  - by_eval.
  - reflexivity.
Defined.

(** X3: when the description list alone has k distinct ids (k >= 1) the
    shelf list is not looked at: the rows are those of the first k
    distinct description ids, all tagged Description. *)
Theorem fuse_description_fills w q k row :
  NoDup (book_id <$> books_df w) →
  lookup_book (books_df w) q = Some row →
  1 ≤ k →
  k ≤ Z.of_nat (size (list_to_set (top_desc_neighbors_ids row) : gset Z)) →
  fuse_neighbors_streamlit q k w =
  (Ok (hydrate_tier (books_df w) SRC_DESC
         (take (Z.to_nat k) (fresh_ids ∅ (top_desc_neighbors_ids row)))), w).
Proof.
  intros Hdf Hrow Hk Hsize. rewrite (fuse_spec w q k row) by done.
  destruct (tier_ids_pos k (top_desc_neighbors_ids row)
              (top_shelf_neighbors_ids row) Hk) as [-> ->].
  rewrite fresh_ids_length.
  replace (Z.to_nat k - _)%nat with 0%nat by lia.
  rewrite take_0. unfold hydrate_tier at 2. simpl. by rewrite app_nil_r.
Qed.

Lemma fuse_description_fills_witness :
  fuse_neighbors_streamlit 1 2 world_abcde =
  (Ok (hydrate_tier (books_df world_abcde) SRC_DESC
         (take (Z.to_nat 2) (fresh_ids ∅ [2; 3]))), world_abcde).
Proof.
  apply (fuse_description_fills world_abcde 1 2 (book 1 "A" 10 [2; 3] [3; 4; 5])).
  - compute_done.
  - by_eval.
  - lia.
  - compute_done.
Defined.

(** X4: the tag tells where an id came from.  A row tagged Description
    has an id of the description list; a row tagged Popular Shelves has an
    id of the shelf list that the description list does not contain; no
    other tag occurs. *)
Theorem fuse_provenance w q k row out x :
  NoDup (book_id <$> books_df w) →
  lookup_book (books_df w) q = Some row →
  fuse_neighbors_streamlit q k w = (Ok out, w) →
  x ∈ out →
  (f_source x = Some SRC_DESC ∧ f_book_id x ∈ top_desc_neighbors_ids row)
  ∨ (f_source x = Some SRC_SHELF
     ∧ f_book_id x ∈ top_shelf_neighbors_ids row
     ∧ f_book_id x ∉ top_desc_neighbors_ids row).
Proof.
  intros Hdf Hrow Hfuse Hx. rewrite (fuse_spec w q k row) in Hfuse by done.
  injection Hfuse as <-.
  apply elem_of_app in Hx as [Hx|Hx];
    apply hydrate_tier_inv in Hx as (r & Hin & _ & ->); simpl in *.
  - left. split; [done|]. by eapply tier1_ids_subseteq.
  - right. split; [done|]. by eapply tier2_ids_shelf_only.
Qed.

Lemma fuse_provenance_witness :
  (f_source (fused_row SRC_SHELF (book 4 "D" 40 [] [])) = Some SRC_DESC
   ∧ f_book_id (fused_row SRC_SHELF (book 4 "D" 40 [] [])) ∈ [2; 3])
  ∨ (f_source (fused_row SRC_SHELF (book 4 "D" 40 [] [])) = Some SRC_SHELF
     ∧ f_book_id (fused_row SRC_SHELF (book 4 "D" 40 [] [])) ∈ [3; 4; 5]
     ∧ f_book_id (fused_row SRC_SHELF (book 4 "D" 40 [] [])) ∉ [2; 3]).
Proof.
  apply (fuse_provenance world_abcde 1 3 (book 1 "A" 10 [2; 3] [3; 4; 5])
           [ fused_row SRC_DESC (book 2 "B" 20 [] []);
             fused_row SRC_DESC (book 3 "C" 30 [] []);
             fused_row SRC_SHELF (book 4 "D" 40 [] []) ]).
  - compute_done.
  - by_eval.
  - by_eval.
  - rewrite !elem_of_cons. auto.
Defined.

Lemma take_prefix_mono {A} (l : list A) n m :
  (n ≤ m)%nat → take n l `prefix_of` take m l.
Proof.
  intros Hnm. exists (take (m - n) (drop n l)).
  rewrite take_take_drop. f_equal. lia.
Qed.

Lemma hydrate_tier_app df src ids1 ids2 :
  hydrate_tier df src (ids1 ++ ids2) =
  hydrate_tier df src ids1 ++ hydrate_tier df src ids2.
Proof. unfold hydrate_tier. apply omap_app. Qed.

Lemma hydrate_tier_prefix df src ids1 ids2 :
  ids1 `prefix_of` ids2 →
  hydrate_tier df src ids1 `prefix_of` hydrate_tier df src ids2.
Proof.
  intros [rest ->]. rewrite hydrate_tier_app. by apply prefix_app_r.
Qed.

(** X5: asking for more only appends.  For 1 <= k <= k' the rows returned
    for k are the first rows of those returned for k'. *)
Theorem fuse_prefix_in_k w q k k' row out out' :
  NoDup (book_id <$> books_df w) →
  lookup_book (books_df w) q = Some row →
  1 ≤ k → k ≤ k' →
  fuse_neighbors_streamlit q k w = (Ok out, w) →
  fuse_neighbors_streamlit q k' w = (Ok out', w) →
  out `prefix_of` out'.
Proof.
  intros Hdf Hrow Hk Hkk' Hout Hout'.
  rewrite (fuse_spec w q k row) in Hout by done.
  rewrite (fuse_spec w q k' row) in Hout' by done.
  injection Hout as <-. injection Hout' as <-.
  destruct (tier_ids_pos k (top_desc_neighbors_ids row)
              (top_shelf_neighbors_ids row) Hk) as [-> ->].
  destruct (tier_ids_pos k' (top_desc_neighbors_ids row)
              (top_shelf_neighbors_ids row)) as [-> ->]; [lia|].
  set (d := fresh_ids ∅ (top_desc_neighbors_ids row)).
  set (s := fresh_ids (list_to_set d) (top_shelf_neighbors_ids row)).
  destruct (decide (Z.to_nat k ≤ length d)%nat) as [Hle|Hgt].
  - replace (Z.to_nat k - length d)%nat with 0%nat by lia.
    rewrite take_0. unfold hydrate_tier at 2. simpl. rewrite app_nil_r.
    apply prefix_app_r, hydrate_tier_prefix, take_prefix_mono. lia.
  - rewrite !(take_ge d) by lia.
    apply prefix_app, hydrate_tier_prefix, take_prefix_mono. lia.
Qed.

Lemma fuse_prefix_in_k_witness :
  [ fused_row SRC_DESC (book 2 "B" 20 [] []) ]
  `prefix_of`
  [ fused_row SRC_DESC (book 2 "B" 20 [] []);
    fused_row SRC_DESC (book 3 "C" 30 [] []);
    fused_row SRC_SHELF (book 4 "D" 40 [] []) ].
Proof.
  apply (fuse_prefix_in_k world_abcde 1 1 3 (book 1 "A" 10 [2; 3] [3; 4; 5])).
  - compute_done.
  - by_eval.
  - lia.
  - lia.
  - by_eval.
  - by_eval.
Defined.

Lemma fuse_found_returns w q k :
  q ∈ book_id <$> books_df w →
  ∃ out, fuse_neighbors_streamlit q k w = (Ok out, w).
Proof.
  intros (r & -> & Hin)%list_elem_of_fmap.
  unfold fuse_neighbors_streamlit, mbind, M_bind, read_books_df, mret, M_ret.
  destruct (filter _ _) as [|row rest] eqn:Hf.
  - assert (r ∈ filter (λ r0, book_id r0 = book_id r) (books_df w)) as Hr
      by by apply list_elem_of_filter.
    rewrite Hf in Hr. by apply elem_of_nil in Hr.
  - destruct (fused_recommendations_ids _); eauto.
Qed.

(** X6: for a book of the catalog [fuse] shows no message and changes
    nothing, whatever its neighbour lists hold, even when no row comes
    back: the not-found warning is kept for ids outside the catalog.
    This needs no assumption on the catalog. *)
Theorem fuse_found_is_silent w q k :
  q ∈ book_id <$> books_df w →
  ∃ out, fuse_neighbors_streamlit q k w = (Ok out, w).
Proof. apply fuse_found_returns. Qed.

Lemma fuse_found_is_silent_witness :
  ∃ out, fuse_neighbors_streamlit 2 10 world_abcde = (Ok out, world_abcde).
Proof.
  apply (fuse_found_is_silent world_abcde 2 10). compute_done.
Defined.

(** X7: with k at least the number of distinct neighbour ids (and k >= 1)
    every neighbour that has a catalog row is returned once: the
    description ids in order of first occurrence, then the remaining shelf
    ids. *)
Theorem fuse_all_neighbours w q k row :
  NoDup (book_id <$> books_df w) →
  lookup_book (books_df w) q = Some row →
  1 ≤ k →
  Z.of_nat (size (list_to_set (top_desc_neighbors_ids row
                                 ++ top_shelf_neighbors_ids row) : gset Z)) ≤ k →
  ∃ out,
    fuse_neighbors_streamlit q k w = (Ok out, w) ∧
    f_book_id <$> out =
      filter (λ bid, bid ∈ book_id <$> books_df w)
        (fresh_ids ∅ (top_desc_neighbors_ids row ++ top_shelf_neighbors_ids row)).
Proof.
  intros Hdf Hrow Hk Hsize. eexists. split; [by apply fuse_spec|].
  rewrite fmap_app, !hydrate_tier_ids, <-filter_app by done. f_equal.
  pose proof (fill_both_ids k (top_desc_neighbors_ids row)
                (top_shelf_neighbors_ids row) Hk) as Hids.
  rewrite fill_both_spec in Hids. simpl in Hids. rewrite Hids.
  apply take_ge. rewrite fresh_ids_length. lia.
Qed.

Lemma fuse_all_neighbours_witness :
  ∃ out,
    fuse_neighbors_streamlit 1 10 world_abcde = (Ok out, world_abcde) ∧
    f_book_id <$> out =
      filter (λ bid, bid ∈ book_id <$> books_df world_abcde)
        (fresh_ids ∅ ([2; 3] ++ [3; 4; 5])).
Proof.
  apply (fuse_all_neighbours world_abcde 1 10 (book 1 "A" 10 [2; 3] [3; 4; 5])).
  - compute_done.
  - by_eval.
  - lia.
  - compute_done.
Defined.

(** X8: every row shows the title, rating and rating count of the catalog
    record that has its id. *)
Theorem fuse_rows_from_catalog w q k row out x :
  NoDup (book_id <$> books_df w) →
  lookup_book (books_df w) q = Some row →
  fuse_neighbors_streamlit q k w = (Ok out, w) →
  x ∈ out →
  ∃ r, lookup_book (books_df w) (f_book_id x) = Some r ∧
       f_title x = title r ∧
       f_average_rating x = average_rating r ∧
       f_ratings_count x = ratings_count r.
Proof.
  intros Hdf Hrow Hfuse Hx. rewrite (fuse_spec w q k row) in Hfuse by done.
  injection Hfuse as <-.
  apply elem_of_app in Hx as [Hx|Hx];
    apply hydrate_tier_inv in Hx as (r & _ & Hl & Hxr);
    exists r; rewrite Hxr in *; done.
Qed.

Lemma fuse_rows_from_catalog_witness :
  ∃ r, lookup_book (books_df world_abcde)
         (f_book_id (fused_row SRC_DESC (book 3 "C" 30 [] []))) = Some r ∧
       f_title (fused_row SRC_DESC (book 3 "C" 30 [] [])) = title r ∧
       f_average_rating (fused_row SRC_DESC (book 3 "C" 30 [] []))
         = average_rating r ∧
       f_ratings_count (fused_row SRC_DESC (book 3 "C" 30 [] []))
         = ratings_count r.
Proof.
  apply (fuse_rows_from_catalog world_abcde 1 3 (book 1 "A" 10 [2; 3] [3; 4; 5])
           [ fused_row SRC_DESC (book 2 "B" 20 [] []);
             fused_row SRC_DESC (book 3 "C" 30 [] []);
             fused_row SRC_SHELF (book 4 "D" 40 [] []) ]).
  - compute_done.
  - by_eval.
  - by_eval.
  - rewrite !elem_of_cons. auto.
Defined.

(** X9: for every k, also k <= 0, there are never more rows than the two
    lists hold distinct ids. *)
Theorem fuse_at_most_distinct w q k row :
  NoDup (book_id <$> books_df w) →
  lookup_book (books_df w) q = Some row →
  ∃ out,
    fuse_neighbors_streamlit q k w = (Ok out, w) ∧
    (length out ≤ size (list_to_set (top_desc_neighbors_ids row
                                       ++ top_shelf_neighbors_ids row) : gset Z))%nat.
Proof.
  intros Hdf Hrow. eexists. split; [by apply fuse_spec|].
  set (desc := top_desc_neighbors_ids row).
  set (shelf := top_shelf_neighbors_ids row).
  pose proof (hydrate_tier_length (books_df w) SRC_DESC (tier1_ids k desc)).
  pose proof (hydrate_tier_length (books_df w) SRC_SHELF (tier2_ids k desc shelf)).
  pose proof (tier_ids_NoDup k desc shelf) as Hnd.
  assert (length (tier1_ids k desc ++ tier2_ids k desc shelf)
          ≤ size (list_to_set (desc ++ shelf) : gset Z))%nat as Hle.
  { rewrite <-(size_list_to_set (C := gset Z)) by done.
    apply subseteq_size. intros x Hx. apply elem_of_list_to_set in Hx.
    apply elem_of_list_to_set, elem_of_app.
    apply elem_of_app in Hx as [Hx|Hx].
    - left. by eapply tier1_ids_subseteq.
    - right. by eapply tier2_ids_shelf_only. }
  rewrite length_app in *. lia.
Qed.

Lemma fuse_at_most_distinct_witness :
  ∃ out,
    fuse_neighbors_streamlit 1 10 world_abcde = (Ok out, world_abcde) ∧
    (length out ≤ size (list_to_set ([2; 3] ++ [3; 4; 5])%Z : gset Z))%nat.
Proof.
  apply (fuse_at_most_distinct world_abcde 1 10 (book 1 "A" 10 [2; 3] [3; 4; 5])).
  - compute_done.
  - by_eval.
Defined.

(** ** The sort behind the hydration *)

Lemma insert_by_rank_perm x l : insert_by_rank x l ≡ₚ x :: l.
Proof.
  induction l as [|y l IH]; simpl; [done|].
  case_decide; [done|]. rewrite IH. apply Permutation_swap.
Qed.

Lemma insertion_sort_rank_perm l : insertion_sort_rank l ≡ₚ l.
Proof.
  induction l as [|x l IH]; [done|]. unfold insertion_sort_rank in *. simpl.
  by rewrite insert_by_rank_perm, IH.
Qed.

Lemma insert_by_rank_sorted x l :
  Sorted row_rank_le l → Sorted row_rank_le (insert_by_rank x l).
Proof.
  induction 1 as [|y l Hl IH Hhd]; simpl.
  - by repeat constructor.
  - case_decide as Hxy.
    + by repeat constructor.
    + assert (row_rank_le y x) as Hyx by (by destruct (total row_rank_le x y)).
      constructor; [done|].
      destruct Hhd as [|z l' Hyz]; simpl.
      * by constructor.
      * case_decide; by constructor.
Qed.

Lemma insertion_sort_rank_sorted l : Sorted row_rank_le (insertion_sort_rank l).
Proof.
  induction l as [|x l IH]; [constructor|].
  unfold insertion_sort_rank in *. simpl. by apply insert_by_rank_sorted.
Qed.

(** X10: the rows do not depend on how [sort_values] sorts.  In a catalog
    with unique ids any function that returns its input sorted by [_rank]
    gives the frame that the merge sort gives. *)
Theorem hydrate_any_sort sort df k desc shelf :
  (∀ rows, sort rows ≡ₚ rows) →
  (∀ rows, Sorted row_rank_le (sort rows)) →
  NoDup (book_id <$> df) →
  hydrate_with sort df (fill_both k desc shelf) =
  hydrate df (fill_both k desc shelf).
Proof.
  intros Hperm Hsorted Hdf. unfold hydrate_with, hydrate. f_equal.
  assert (NoDup (fused_recommendations_ids (fill_both k desc shelf))) as Hnd.
  { rewrite fill_both_spec. apply tier_ids_NoDup. }
  rewrite sort_values_rank_spec by done.
  by apply sorted_rows_unique.
Qed.

Lemma hydrate_any_sort_witness :
  hydrate_with insertion_sort_rank catalog_abcde (fill_both 3 [2; 3] [3; 4; 5]) =
  hydrate catalog_abcde (fill_both 3 [2; 3] [3; 4; 5]).
Proof.
  apply (hydrate_any_sort insertion_sort_rank catalog_abcde 3 [2; 3] [3; 4; 5]).
  - apply insertion_sort_rank_perm.
  - apply insertion_sort_rank_sorted.
  - compute_done.
Defined.

(** ** What a search returns *)

(** X11: whenever the search returns, for any query and any limit, the
    tuples are those of rows of the [books] table, most rated first, at
    most k of them when k >= 0, and nothing has been written. *)
Theorem search_result_shape `{!TitleIndex, !Similarity} q k w out w' :
  search_books_streamlit q k w = (Ok out, w') →
  w' = w
  ∧ StronglySorted more_rated out
  ∧ (∀ x, x ∈ out → ∃ r, r ∈ db_books w ∧ x = search_row r)
  ∧ (0 ≤ k → Z.of_nat (length out) ≤ k).
Proof.
  intros Hs.
  destruct (search_cases q k w) as [(e & He)|(rows & Hsub & Hok)].
  { rewrite He in Hs. discriminate. }
  rewrite Hok in Hs. injection Hs as <- <-. split_and!; [done| | |].
  - apply selected_sorted.
  - intros x (r & Hr & ->)%selected_from. exists r. split; [|done].
    by apply Hsub.
  - intros Hk. rewrite selected_length by done. lia.
Qed.

Lemma search_result_shape_witness :
  world_dune = world_dune
  ∧ StronglySorted more_rated
      [search_row (book 1 "Dune" 500 [] []);
       search_row (book 2 "Dune Messiah" 300 [] [])]
  ∧ (∀ x, x ∈ [search_row (book 1 "Dune" 500 [] []);
               search_row (book 2 "Dune Messiah" 300 [] [])] →
          ∃ r, r ∈ db_books world_dune ∧ x = search_row r)
  ∧ (0 ≤ 2 → Z.of_nat (length [search_row (book 1 "Dune" 500 [] []);
                               search_row (book 2 "Dune Messiah" 300 [] [])]) ≤ 2).
Proof.
  apply (@search_result_shape toy_index toy_similarity "Dunes" 2 world_dune).
  by_eval.
Defined.


(** X13: with the limit 0 the search returns nothing and never raises,
    whatever the query: the first statement returns no row without the
    [MATCH] being looked at, so even a query that FTS5 rejects passes, and
    the fallback asks for no title. *)
Theorem search_limit_zero `{!TitleIndex, !Similarity} q w :
  search_books_streamlit q 0 w = (Ok [], w).
Proof. apply search_zero. Qed.

Example search_limit_zero_quote :
  @search_books_streamlit toy_index toy_similarity query_with_quote 0 world_dune
  = (Ok [], world_dune).
Proof. by_eval. Qed.

(** X14: when the phrase search finds a row and the limit is a 64-bit
    integer other than 0, the fuzzy matching plays no part: the result is
    the same under any two scorers, it is not empty, and every tuple is a
    row the phrase matched. *)
Theorem search_phrase_hit_ignores_scorer `{!TitleIndex}
    (S1 S2 : Similarity) q k w hit :
  fts5_match (fts5_query_str q) = Ok hit →
  filter (λ r, hit r) (db_books w) ≠ [] →
  in_int64 k →
  k ≠ 0 →
  ∃ out,
    @search_books_streamlit _ S1 q k w = (Ok out, w) ∧
    @search_books_streamlit _ S2 q k w = (Ok out, w) ∧
    out ≠ [] ∧
    ∀ x, x ∈ out → ∃ r, r ∈ db_books w ∧ hit r = true ∧ x = search_row r.
Proof.
  intros Hm Hhit Hk Hk0.
  set (rows := filter (λ r, hit r) (db_books w)) in *.
  exists (search_row <$> order_by_limit rows k).
  split_and!.
  - by apply (@search_phrase _ S1).
  - by apply (@search_phrase _ S2).
  - intros Hnil%fmap_nil_inv. by apply (order_by_limit_nonempty rows k).
  - intros x (r & Hr & ->)%selected_from. exists r.
    apply list_elem_of_filter in Hr as [Hh Hr]. split_and!; [done| |done].
    by apply Is_true_true.
Qed.

Lemma search_phrase_hit_ignores_scorer_witness :
  ∃ out,
    @search_books_streamlit toy_index toy_similarity "Dune" 5 world_dune
      = (Ok out, world_dune) ∧
    @search_books_streamlit toy_index {| scorer := λ _ _, 0 |} "Dune" 5 world_dune
      = (Ok out, world_dune) ∧
    out ≠ [] ∧
    ∀ x, x ∈ out →
      ∃ r, r ∈ db_books world_dune ∧ occurs_in "Dune" (title r) = true
           ∧ x = search_row r.
Proof.
  apply (@search_phrase_hit_ignores_scorer toy_index toy_similarity
           {| scorer := λ _ _, 0 |} "Dune" 5 world_dune
           (λ r, occurs_in "Dune" (title r))).
  - reflexivity.
  - by_eval.
  - compute_done.
  - lia.
Defined.

(** ** How many candidates the fallback gives *)

(** Rows at distinct positions that pass a filter are counted by it. *)
Lemma filter_counts_positions {A} (P : A → Prop) `{∀ x, Decision (P x)}
    (l : list A) (S : gset nat) :
  (∀ i, i ∈ S → ∃ x, l !! i = Some x ∧ P x) →
  (size S ≤ length (filter P l))%nat.
Proof.
  revert S. induction l as [|x l IH] using rev_ind; intros S HS.
  - destruct (set_choose_or_empty S) as [[i Hi]|HS'].
    + by destruct (HS i Hi) as (y & Hy & _).
    + apply size_empty_iff in HS'. lia.
  - rewrite filter_app, length_app.
    assert (size (S ∖ {[length l]}) ≤ length (filter P l))%nat as IH'.
    { apply IH. intros i [Hi Hne]%elem_of_difference.
      destruct (HS i Hi) as (y & Hy & HP). exists y. split; [|done].
      apply lookup_app_Some in Hy as [Hy|[Hge Hy]]; [done|].
      apply list_lookup_singleton_Some in Hy as [Hz ->].
      exfalso. apply Hne, elem_of_singleton. lia. }
    destruct (decide (length l ∈ S)) as [Hin|Hout].
    + destruct (HS _ Hin) as (y & Hy & HP).
      rewrite lookup_app_r, Nat.sub_diag in Hy by lia. simplify_eq/=.
      rewrite filter_cons_True, filter_nil by done. simpl.
      assert (size S = size (S ∖ {[length (l)]}) + 1)%nat; [|lia].
      rewrite size_difference by set_solver. rewrite size_singleton.
      assert (size S ≠ 0)%nat; [|lia].
      intros Hz%size_empty_iff. set_solver.
    + replace (S ∖ {[length l]}) with S in IH' by set_solver. lia.
Qed.

Section fallback_facts.
Context `{!TitleIndex, !Similarity}.

(** The most similar titles with the positions they were found at. *)
Local Abbreviation placed q titles k :=
  (take (Z.to_nat k) (merge_sort (more_similar q) (imap pair titles))).

Lemma placed_NoDup q (titles : list string) k :
  NoDup (fst <$> placed q titles k).
Proof.
  rewrite fmap_take.
  eapply sublist_NoDup; [|apply sublist_take].
  rewrite merge_sort_Permutation, fmap_imap.
  rewrite (imap_ext _ (λ i _, id i)) by done.
  rewrite (imap_seq_0 titles id). rewrite list_fmap_id. apply NoDup_seq.
Qed.

Lemma placed_position q (titles : list string) k p :
  p ∈ placed q titles k → titles !! p.1 = Some p.2.
Proof.
  intros Hp%subseteq_take.
  rewrite merge_sort_Permutation in Hp.
  by apply elem_of_lookup_imap in Hp as (i & c & -> & Hc).
Qed.

(** The second [SELECT] finds at least as many rows as titles were
    matched. *)
Lemma title_in_matches_enough q k db :
  (Nat.min (Z.to_nat k) (length db)
   ≤ length (filter (λ r, title r ∈ top_similar q (title <$> db) k) db))%nat.
Proof.
  set (E := placed q (title <$> db) k).
  set (S := list_to_set (fst <$> E) : gset nat).
  assert (size S = Nat.min (Z.to_nat k) (length db)) as <-.
  { unfold S. rewrite size_list_to_set by apply placed_NoDup.
    unfold E.
    by rewrite length_fmap, length_take, merge_sort_Permutation,
      length_imap, length_fmap. }
  apply filter_counts_positions. intros i Hi.
  apply elem_of_list_to_set, list_elem_of_fmap in Hi as (p & -> & Hp).
  pose proof (placed_position _ _ _ _ Hp) as Hpos.
  apply list_lookup_fmap_Some in Hpos as (r & Ht & Hr).
  exists r. split; [done|]. rewrite <-Ht.
  unfold top_similar. apply list_elem_of_fmap. by exists p.
Qed.
End fallback_facts.

(** X15: when the phrase search matches no row, for a limit
    0 <= k < 2^63 and a database that accepts the placeholders of the
    second statement, the fallback returns exactly min(k, number of rows
    of the table) candidates: there is no similarity threshold, so only
    the limit and the size of the table bound it. *)
Theorem search_fallback_count `{!TitleIndex, !Similarity} q k w hit :
  fts5_match (fts5_query_str q) = Ok hit →
  filter (λ r, hit r) (db_books w) = [] →
  0 ≤ k < 2 ^ 63 →
  (Nat.min (Z.to_nat k) (length (db_books w)) < max_variable_number)%nat →
  ∃ out,
    search_books_streamlit q k w = (Ok out, w) ∧
    length out = Nat.min (Z.to_nat k) (length (db_books w)).
Proof.
  intros Hm Hnone Hk Hvars.
  exists (fuzzy_fallback_spec (db_books w) q k). split.
  { rewrite search_fallback
      by (eapply sql_fts_none; [unfold in_int64; lia|done..]).
    by rewrite decide_False, decide_True by (lia || done). }
  unfold fuzzy_fallback_spec. rewrite selected_length by lia.
  pose proof (title_in_matches_enough q k (db_books w)) as Hge.
  pose proof (length_filter
    (λ r, title r ∈ top_similar q (title <$> db_books w) k) (db_books w)).
  lia.
Qed.

Lemma search_fallback_count_witness :
  ∃ out,
    @search_books_streamlit toy_index toy_similarity "Dunes" 2 world_dune
      = (Ok out, world_dune) ∧
    length out = Nat.min (Z.to_nat 2) (length (db_books world_dune)).
Proof.
  apply (@search_fallback_count toy_index toy_similarity "Dunes" 2 world_dune
           (λ r, occurs_in "Dunes" (title r))).
  - reflexivity.
  - reflexivity.
  - lia.
  - vm_compute. lia.
Defined.

(** X16: every candidate of the fallback carries one of the k titles most
    similar to the query, where of two equally similar titles the one
    earlier in the table counts as the more similar. *)
Theorem search_fallback_titles `{!TitleIndex, !Similarity} q k w hit :
  fts5_match (fts5_query_str q) = Ok hit →
  filter (λ r, hit r) (db_books w) = [] →
  0 ≤ k < 2 ^ 63 →
  (Nat.min (Z.to_nat k) (length (db_books w)) < max_variable_number)%nat →
  ∃ out,
    search_books_streamlit q k w = (Ok out, w) ∧
    ∀ x, x ∈ out → s_title x ∈ top_similar q (title <$> db_books w) k.
Proof.
  intros Hm Hnone Hk Hvars.
  exists (fuzzy_fallback_spec (db_books w) q k). split.
  { rewrite search_fallback
      by (eapply sql_fts_none; [unfold in_int64; lia|done..]).
    by rewrite decide_False, decide_True by (lia || done). }
  unfold fuzzy_fallback_spec. intros x (r & Hr & ->)%selected_from.
  by apply list_elem_of_filter in Hr as [Ht _].
Qed.

Lemma search_fallback_titles_witness :
  ∃ out,
    @search_books_streamlit toy_index toy_similarity "abcd" 2 world_ties
      = (Ok out, world_ties) ∧
    ∀ x, x ∈ out →
      s_title x ∈ @top_similar toy_similarity "abcd"
                    (title <$> db_books world_ties) 2.
Proof.
  apply (@search_fallback_titles toy_index toy_similarity "abcd" 2 world_ties
           (λ r, occurs_in "abcd" (title r))).
  - reflexivity.
  - reflexivity.
  - lia.
  - vm_compute. lia.
Defined.

Example top_similar_ties :
  @top_similar toy_similarity "abcd" (title <$> db_ties) 2 = ["abcx"; "abcy"].
Proof. by_eval. Qed.

(** ** When the quoting is literal *)

Lemma string_length_app (a b : string) :
  String.length (a +:+ b) = (String.length a + String.length b)%nat.
Proof.
  induction a as [|c a IH]; [done|].
  rewrite string_app_cons. simpl. by rewrite IH.
Qed.

Lemma string_length_snoc buf c :
  String.length (snoc_char buf c) = S (String.length buf).
Proof. unfold snoc_char. rewrite string_length_app. simpl. lia. Qed.

Lemma string_app_inj_l (a b : string) c :
  a +:+ String c EmptyString = b +:+ String c EmptyString → a = b.
Proof.
  revert b. induction a as [|x a IH]; intros [|y b] Heq; [done| | |].
  - apply (f_equal String.length) in Heq.
    rewrite string_app_cons in Heq. simpl in Heq.
    rewrite string_length_app in Heq. simpl in Heq. lia.
  - apply (f_equal String.length) in Heq.
    rewrite string_app_cons in Heq. simpl in Heq.
    rewrite string_length_app in Heq. simpl in Heq. lia.
  - rewrite !string_app_cons in Heq. injection Heq as -> Heq.
    f_equal. by apply IH.
Qed.

Lemma push_single buf (l : lexed) t :
  push (FTS5_STRING buf) l = Tokens [FTS5_STRING t] → t = buf.
Proof. destruct l as [|[|]]; simpl; congruence. Qed.

(** Reading on inside a string, or just after a quote inside it: the one
    string that comes out is shorter than what was read, and as long as it
    can be only when the rest is a quote-free text and the closing
    quote. *)
Lemma fts5_lex_string_bound s :
  ∀ buf t,
    (fts5_lex_go (InString buf) s = Tokens [FTS5_STRING t] →
     (String.length t + 1 ≤ String.length buf + String.length s)%nat ∧
     ((String.length t + 1 = String.length buf + String.length s)%nat →
      ∃ q', s = q' +:+ String dquote EmptyString ∧ quote_free q' = true))
    ∧ (fts5_lex_go (QuoteSeen buf) s = Tokens [FTS5_STRING t] →
       (String.length t ≤ String.length buf + String.length s)%nat ∧
       ((String.length t = String.length buf + String.length s)%nat →
        s = EmptyString)).
Proof.
  induction s as [|c r IH]; intros buf t.
  - split; [done|]. simpl. intros [= ->]. split; [lia|done].
  - split.
    + simpl. destruct (is_nul c) eqn:Hnul; [done|].
      case_bool_decide as Hdq.
      * intros Hlex. destruct (IH buf t) as [_ IHq].
        destruct (IHq Hlex) as [Hle Heq]. split; [lia|].
        intros Hlen. rewrite Heq by lia. subst c.
        by exists EmptyString.
      * intros Hlex. destruct (IH (snoc_char buf c) t) as [IHs _].
        destruct (IHs Hlex) as [Hle Heq].
        rewrite string_length_snoc in Hle, Heq. split; [lia|].
        intros Hlen. destruct Heq as (q' & -> & Hq'); [lia|].
        exists (String c q'). split; [done|]. simpl.
        rewrite Hq', Hnul. by rewrite bool_decide_false.
    + simpl. case_bool_decide as Hdq.
      * intros Hlex. destruct (IH (snoc_char buf dquote) t) as [IHs _].
        destruct (IHs Hlex) as [Hle _].
        rewrite string_length_snoc in Hle. split; lia.
      * intros Hlex%push_single. subst t. split; lia.
Qed.

(** X17: the text handed to [MATCH] is read back as the one phrase
    [title_query_str] exactly when the query holds no double quote and no
    NUL; with either in it the index is asked something else, or nothing. *)
Theorem fts5_query_str_literal_iff q :
  fts5_lex (fts5_query_str q) = Tokens [FTS5_STRING q] ↔ quote_free q = true.
Proof.
  split; [|intros Hq; apply fts5_lex_quote_free; by rewrite Hq].
  intros Hlex.
  change (fts5_lex_go (InString EmptyString)
            (q +:+ String dquote EmptyString) = Tokens [FTS5_STRING q]) in Hlex.
  destruct (fts5_lex_string_bound (q +:+ String dquote EmptyString)
              EmptyString q) as [Hs _].
  destruct (Hs Hlex) as [_ Heq].
  destruct Heq as (q' & Hq & Hfree).
  - rewrite string_length_app. simpl. lia.
  - apply string_app_inj_l in Hq. by subst.
Qed.

(** ** Loading the catalog *)

Section loading_facts.
Context `{!Storage}.

Lemma decode_column_inr col rows vs :
  decode_column col rows = inr vs ↔
  Forall2 (λ r v, json_loads (col r) = inr v) rows vs.
Proof.
  revert vs. induction rows as [|r rows IH]; intros vs; simpl.
  - split; [intros [= <-]; constructor|by intros ->%Forall2_nil_inv_l].
  - destruct (json_loads (col r)) as [e|v] eqn:Hr.
    + split; [done|]. intros (v & vs' & Hv & _ & _)%Forall2_cons_inv_l.
      congruence.
    + destruct (decode_column col rows) as [e|vs'] eqn:Hrest.
      * split; [done|]. intros (v' & vs' & _ & Hvs & _)%Forall2_cons_inv_l.
        apply IH in Hvs. done.
      * split.
        -- intros [= <-]. constructor; [done|]. by apply IH.
        -- intros (v' & vs'' & Hv & Hvs & ->)%Forall2_cons_inv_l.
           apply IH in Hvs. congruence.
Qed.

Lemma decode_column_inl col rows e :
  decode_column col rows = inl e → ∃ r, r ∈ rows ∧ json_loads (col r) = inl e.
Proof.
  induction rows as [|r rows IH]; simpl; [done|].
  destruct (json_loads (col r)) as [e'|v] eqn:Hr.
  - intros [= ->]. exists r. split; [left|done].
  - destruct (decode_column col rows) as [e'|vs]; [|done].
    intros [= ->]. destruct IH as (r' & Hin & Hr'); [done|].
    exists r'. split; [by right|done].
Qed.

Lemma decode_column_total col rows :
  (∀ r, r ∈ rows → ∃ v, json_loads (col r) = inr v) →
  ∃ vs, decode_column col rows = inr vs.
Proof.
  intros Hall. destruct (decode_column col rows) as [e|vs] eqn:Hd; [|eauto].
  apply decode_column_inl in Hd as (r & Hin & Hr).
  destruct (Hall r Hin) as [v Hv]. congruence.
Qed.

Lemma build_frame_decoded rows descs shelves :
  Forall2 (λ r v, json_loads (top_desc_neighbors_ids_json r) = inr v) rows descs →
  Forall2 (λ r v, json_loads (top_shelf_neighbors_ids_json r) = inr v) rows shelves →
  Forall2 decoded rows (build_frame rows descs shelves).
Proof.
  intros Hd. revert shelves.
  induction Hd as [|r d rows descs Hr Hd IH]; intros shelves Hs.
  - apply Forall2_nil_inv_l in Hs as ->. constructor.
  - apply Forall2_cons_inv_l in Hs as (s & shelves' & Hrs & Hs & ->).
    unfold build_frame. simpl. constructor; [by repeat split|].
    by apply IH.
Qed.
End loading_facts.

(** X18: when the load goes through, the frame has one record per row of
    the table, in the order of the table, with the row's id, title, rating
    and count and its two neighbour lists decoded; the only message is the
    success notice. *)
Theorem load_app_data_loaded `{!Storage} w df w' :
  load_app_data w = (Loaded df, w') →
  ∃ rows,
    read_books_table = inr rows ∧
    Forall2 decoded rows df ∧
    ui w' = ui w ++ [st_success loaded_msg] ∧
    books_df w' = books_df w ∧ db_books w' = db_books w ∧
    session_state w' = session_state w.
Proof.
  unfold load_app_data, stop_with.
  destruct read_books_table as [[e|e]|rows]; [done..|].
  destruct (decode_column similar_books_json rows) as [e|sims]; [done|].
  destruct (decode_column top_desc_neighbors_ids_json rows)
    as [e|descs] eqn:Hd; [done|].
  destruct (decode_column top_shelf_neighbors_ids_json rows)
    as [e|shelves] eqn:Hs; [done|].
  intros [= <- <-]. exists rows. split_and!; try done.
  apply build_frame_decoded; by apply decode_column_inr.
Qed.

Lemma load_app_data_loaded_witness :
  ∃ rows,
    @read_books_table store_good = inr rows ∧
    Forall2 (@decoded store_good) rows
      [book 1 "A" 10 [2; 3] [3]; book 2 "B" 20 [] []; book 3 "C" 30 [] []] ∧
    ui (mkWorld [] [] [st_success loaded_msg] no_session)
      = ui world_empty ++ [st_success loaded_msg] ∧
    books_df (mkWorld [] [] [st_success loaded_msg] no_session)
      = books_df world_empty ∧
    db_books (mkWorld [] [] [st_success loaded_msg] no_session)
      = db_books world_empty ∧
    session_state (mkWorld [] [] [st_success loaded_msg] no_session)
      = session_state world_empty.
Proof.
  apply (@load_app_data_loaded store_good world_empty). by_eval.
Defined.

(** X19: when the load fails, whatever the cause, the script is halted
    with exactly one error message and without the success notice, and no
    frame is handed on. *)
Theorem load_app_data_stopped `{!Storage} w w' :
  load_app_data w = (Stopped, w') →
  ∃ msg,
    ui w' = ui w ++ [st_error msg] ∧
    books_df w' = books_df w ∧ db_books w' = db_books w ∧
    session_state w' = session_state w.
Proof.
  unfold load_app_data, stop_with.
  destruct read_books_table as [[e|e]|rows].
  1,2: intros [= <-]; eexists; by split_and!.
  destruct (decode_column similar_books_json rows) as [e|sims].
  { intros [= <-]; eexists; by split_and!. }
  destruct (decode_column top_desc_neighbors_ids_json rows) as [e|descs].
  { intros [= <-]; eexists; by split_and!. }
  destruct (decode_column top_shelf_neighbors_ids_json rows) as [e|shelves].
  { intros [= <-]; eexists; by split_and!. }
  done.
Qed.

Lemma load_app_data_stopped_witness :
  ∃ msg,
    ui (mkWorld [] [] [st_error (unexpected_msg "no such table: books")] no_session)
      = ui world_empty ++ [st_error msg] ∧
    books_df (mkWorld [] [] [st_error (unexpected_msg "no such table: books")]
                no_session) = books_df world_empty ∧
    db_books (mkWorld [] [] [st_error (unexpected_msg "no such table: books")]
                no_session) = db_books world_empty ∧
    session_state (mkWorld [] [] [st_error (unexpected_msg "no such table: books")]
                     no_session) = session_state world_empty.
Proof.
  apply (@load_app_data_stopped store_missing world_empty). by_eval.
Defined.

(** X20: the load goes through exactly when the table can be read and, in
    every row, all three JSON columns decode.  The list of similar books
    counts too, although nothing in the script reads it afterwards: one row
    with a broken [similar_books_json] halts the application. *)
Theorem load_app_data_succeeds_iff `{!Storage} w :
  (∃ df w', load_app_data w = (Loaded df, w')) ↔
  ∃ rows,
    read_books_table = inr rows ∧
    ∀ r, r ∈ rows →
      (∃ v, json_loads (similar_books_json r) = inr v) ∧
      (∃ v, json_loads (top_desc_neighbors_ids_json r) = inr v) ∧
      (∃ v, json_loads (top_shelf_neighbors_ids_json r) = inr v).
Proof.
  unfold load_app_data, stop_with. split.
  - intros (df & w' & Hload).
    destruct read_books_table as [[e|e]|rows]; [done..|].
    exists rows. split; [done|].
    destruct (decode_column similar_books_json rows) as [e|sims] eqn:H1; [done|].
    destruct (decode_column top_desc_neighbors_ids_json rows)
      as [e|descs] eqn:H2; [done|].
    destruct (decode_column top_shelf_neighbors_ids_json rows)
      as [e|shelves] eqn:H3; [done|].
    apply decode_column_inr in H1, H2, H3.
    intros r [i Hi]%list_elem_of_lookup.
    destruct (Forall2_lookup_l _ _ _ _ _ H1 Hi) as (v1 & _ & ?).
    destruct (Forall2_lookup_l _ _ _ _ _ H2 Hi) as (v2 & _ & ?).
    destruct (Forall2_lookup_l _ _ _ _ _ H3 Hi) as (v3 & _ & ?).
    split_and!; eauto.
  - intros (rows & -> & Hall).
    destruct (decode_column_total similar_books_json rows) as [v1 ->];
      [intros r Hr; by apply Hall|].
    destruct (decode_column_total top_desc_neighbors_ids_json rows) as [v2 ->];
      [intros r Hr; by apply Hall|].
    destruct (decode_column_total top_shelf_neighbors_ids_json rows) as [v3 ->];
      [intros r Hr; by apply Hall|].
    eauto.
Qed.

Example load_halts_on_unused_column :
  @load_app_data store_bad world_empty =
  (Stopped,
   mkWorld [] [] [st_error (unexpected_msg
                    "Expecting value: line 1 column 1 (char 0)")] no_session).
Proof. by_eval. Qed.

(** ** The button and the select box *)

Lemma list_index_Some x l i :
  list_index x l = Some i → l !! i = Some x.
Proof.
  revert i. induction l as [|y l IH]; intros i; simpl; [done|].
  case_decide as Hxy.
  - intros [= <-]. by subst.
  - destruct (list_index x l) as [j|]; [|done].
    intros [= <-]. by apply IH.
Qed.

Lemma list_index_elem_of x l :
  x ∈ l → ∃ i, list_index x l = Some i.
Proof.
  induction l as [|y l IH]; [by intros ?%elem_of_nil|].
  intros Hx. simpl. case_decide as Hxy; [eauto|].
  apply elem_of_cons in Hx as [?|Hx]; [done|].
  destruct (IH Hx) as [i ->]. eauto.
Qed.

Lemma list_index_not_elem_of x l : x ∉ l → list_index x l = None.
Proof.
  intros Hx. destruct (list_index x l) as [i|] eqn:Hi; [|done].
  apply list_index_Some, list_elem_of_lookup_2 in Hi. done.
Qed.

Lemma list_index_NoDup x l i :
  NoDup l → l !! i = Some x → list_index x l = Some i.
Proof.
  intros Hnd Hi.
  destruct (list_index_elem_of x l) as [j Hj];
    [by eapply list_elem_of_lookup_2|].
  pose proof (list_index_Some _ _ _ Hj) as Hj'.
  by rewrite (NoDup_lookup _ _ _ _ Hnd Hi Hj').
Qed.

(** X21: the select box opens on a valid position: on the book selected
    before when it is still among the matches, and on the first match
    otherwise, in particular right after a new search. *)
Theorem default_index_spec s :
  search_results s ≠ [] →
  (default_index s < length (selectbox_value_options s))%nat
  ∧ (∀ sel, selected_book_id s = Some sel →
            sel ∈ selectbox_value_options s →
            selectbox_value_options s !! default_index s = Some sel)
  ∧ (∀ sel, selected_book_id s = Some sel →
            sel ∉ selectbox_value_options s → default_index s = 0%nat)
  ∧ (selected_book_id s = None → default_index s = 0%nat).
Proof.
  intros Hres.
  assert (0 < length (selectbox_value_options s))%nat as Hpos.
  { unfold selectbox_value_options. rewrite length_fmap.
    destruct (search_results s); [done|simpl; lia]. }
  unfold default_index. split_and!.
  - destruct (selected_book_id s) as [sel|]; [|done].
    destruct (list_index sel _) as [i|] eqn:Hi; [|done].
    by apply list_index_Some, lookup_lt_Some in Hi.
  - intros sel -> Hin. destruct (list_index_elem_of _ _ Hin) as [i Hi].
    rewrite Hi. by apply list_index_Some.
  - intros sel -> Hout. by rewrite list_index_not_elem_of.
  - by intros ->.
Qed.

Lemma default_index_spec_witness :
  (default_index session_dune_selected
   < length (selectbox_value_options
               session_dune_selected))%nat
  ∧ (∀ sel, selected_book_id session_dune_selected
            = Some sel →
            sel ∈ selectbox_value_options
                    session_dune_selected →
            selectbox_value_options
              session_dune_selected
              !! default_index session_dune_selected
            = Some sel)
  ∧ (∀ sel, selected_book_id session_dune_selected
            = Some sel →
            sel ∉ selectbox_value_options
                    session_dune_selected →
            default_index session_dune_selected
            = 0%nat)
  ∧ (selected_book_id session_dune_selected = None →
     default_index session_dune_selected = 0%nat).
Proof.
  apply (default_index_spec session_dune_selected).
  discriminate.
Defined.

(** X22: the label function never fails on an option, and when the
    matches have distinct ids every option is shown with its own title.
    (With a repeated id the later match gets the title of the earlier
    one.) *)
Theorem format_func_label s i x :
  search_results s !! i = Some x →
  (∃ t, format_func s (s_book_id x) = Some t)
  ∧ (NoDup (selectbox_value_options s) →
     format_func s (s_book_id x) = Some (s_title x)).
Proof.
  intros Hi.
  assert (selectbox_value_options s !! i = Some (s_book_id x)) as Hopt.
  { unfold selectbox_value_options. by rewrite list_lookup_fmap, Hi. }
  unfold format_func. split.
  - destruct (list_index_elem_of (s_book_id x) (selectbox_value_options s))
      as [j Hj]; [by eapply list_elem_of_lookup_2|].
    rewrite Hj. simpl.
    pose proof (list_index_Some _ _ _ Hj) as Hlt%lookup_lt_Some.
    unfold selectbox_value_options, selectbox_display_options in *.
    rewrite length_fmap in Hlt.
    apply lookup_lt_is_Some_2. by rewrite length_fmap.
  - intros Hnd. rewrite (list_index_NoDup _ _ i) by done. simpl.
    unfold selectbox_display_options. by rewrite list_lookup_fmap, Hi.
Qed.

Lemma format_func_label_witness :
  (∃ t, format_func session_dune
          (s_book_id (search_row (book 2 "Dune Messiah" 300 [] []))) = Some t)
  ∧ (NoDup (selectbox_value_options session_dune) →
     format_func session_dune
       (s_book_id (search_row (book 2 "Dune Messiah" 300 [] [])))
     = Some (s_title (search_row (book 2 "Dune Messiah" 300 [] [])))).
Proof.
  apply (format_func_label session_dune 1
           (search_row (book 2 "Dune Messiah" 300 [] []))).
  reflexivity.
Defined.

Example format_func_repeated_id :
  format_func (mkSession [mkSearch 7 "First" 1 0%Qc; mkSearch 7 "Second" 1 0%Qc]
                         None None) 7
  = Some "First".
Proof. by_eval. Qed.

(** X23: selecting a match that has a row in the DataFrame (ids unique)
    stores its id and title in the session, keeps the matches, and asks
    [fuse] for 10 recommendations: at most 10 rows are put on the page,
    or the no-recommendations warning when there are none; the
    not-found warning of [fuse] does not appear. *)
Theorem show_selection_found w sel row :
  NoDup (book_id <$> books_df w) →
  search_results (session_state w) ≠ [] →
  lookup_book (books_df w) sel = Some row →
  ∃ recs,
    fuse_neighbors_streamlit sel 10 w = (Ok recs, w) ∧
    (length recs ≤ 10)%nat ∧
    show_selection (Some sel) w =
    (Rendered
       (matches_screen (session_state w)
          ++ [sh_write (selected_book_msg (title row) sel)]
          ++ match recs with
             | [] => []
             | _ :: _ => [sh_subheader "Recommended Books:"; sh_dataframe recs]
             end),
     mkWorld (db_books w) (books_df w)
       (ui w ++ match recs with
                | [] => [st_warning (no_recs_msg (title row))]
                | _ :: _ => []
                end)
       (mkSession (search_results (session_state w)) (Some sel)
                  (Some (title row)))).
Proof.
  intros Hdf Hres Hrow.
  pose proof (lookup_book_id _ _ _ Hrow) as Hid.
  destruct (fuse_bounded_pos w sel 10 row Hdf Hrow) as (recs & Hfuse & Hlen & _);
    [lia|].
  exists recs. split; [done|]. split; [lia|].
  unfold show_selection.
  destruct (search_results (session_state w)) as [|m ms] eqn:Hsr; [done|].
  unfold lookup_book in Hrow. apply head_Some in Hrow as [rest Hf].
  rewrite Hf, Hid.
  set (w1 := mkWorld (db_books w) (books_df w) (ui w)
               (mkSession (m :: ms) (Some sel) (Some (title row)))).
  assert (fuse_neighbors_streamlit sel 10 w1 = (Ok recs, w1)) as ->.
  { rewrite (fuse_spec w sel 10 row) in Hfuse
      by (done || by unfold lookup_book; rewrite Hf).
    injection Hfuse as <-.
    apply (fuse_spec w1 sel 10 row); [done|].
    unfold lookup_book. simpl. by rewrite Hf. }
  destruct recs as [|r recs].
  - done.
  - rewrite <-app_assoc. simpl. by rewrite app_nil_r.
Qed.

Lemma show_selection_found_witness :
  ∃ recs,
    fuse_neighbors_streamlit 1 10 (mkWorld [] catalog_abcde [] session_dune)
      = (Ok recs, mkWorld [] catalog_abcde [] session_dune) ∧
    (length recs ≤ 10)%nat ∧
    show_selection (Some 1) (mkWorld [] catalog_abcde [] session_dune) =
    (Rendered
       (matches_screen session_dune
          ++ [sh_write (selected_book_msg "A" 1)]
          ++ match recs with
             | [] => []
             | _ :: _ => [sh_subheader "Recommended Books:"; sh_dataframe recs]
             end),
     mkWorld [] catalog_abcde
       ([] ++ match recs with
              | [] => [st_warning (no_recs_msg "A")]
              | _ :: _ => []
              end)
       (mkSession (search_results session_dune) (Some 1) (Some "A"))).
Proof.
  apply (show_selection_found (mkWorld [] catalog_abcde [] session_dune) 1
           (book 1 "A" 10 [2; 3] [3; 4; 5])).
  - compute_done.
  - discriminate.
  - by_eval.
Defined.

(** X24: selecting a match that has no row in the DataFrame ends the run
    with the IndexError of [iloc[0]]: the session is not touched and
    [fuse] is not called, so its own not-found branch is not what a user
    of the page gets to see. *)
Theorem show_selection_absent w sel :
  search_results (session_state w) ≠ [] →
  sel ∉ book_id <$> books_df w →
  show_selection (Some sel) w = (IndexError (matches_screen (session_state w)), w).
Proof.
  intros Hres Hsel. unfold show_selection.
  destruct (search_results (session_state w)) as [|m ms]; [done|].
  destruct (filter _ _) as [|r rest] eqn:Hf; [done|].
  exfalso. apply Hsel.
  assert (r ∈ filter (λ r, book_id r = sel) (books_df w)) as Hin
    by (rewrite Hf; left).
  apply list_elem_of_filter in Hin as [<- Hin]. by apply list_elem_of_fmap_2.
Qed.

Lemma show_selection_absent_witness :
  show_selection (Some 2) world_dune_stale =
  (IndexError (matches_screen (session_state world_dune_stale)), world_dune_stale).
Proof.
  apply (show_selection_absent world_dune_stale 2).
  - discriminate.
  - compute_done.
Defined.

(** X25: after a search that returns, the session holds exactly what the
    search returned and no selection; the no-matches warning is shown
    exactly when the search returned nothing, and nothing else is
    shown. *)
Theorem on_get_recommendations_stores `{!TitleIndex, !Similarity} q w out :
  q ≠ EmptyString →
  search_books_streamlit q 5 w = (Ok out, w) →
  on_get_recommendations q w =
  (Ok tt,
   mkWorld (db_books w) (books_df w)
     (ui w ++ match out with
              | [] => [st_warning (no_books_msg q)]
              | _ :: _ => []
              end)
     (mkSession out None None)).
Proof.
  intros Hq Hs. destruct q as [|c q]; [done|].
  unfold on_get_recommendations, mbind, M_bind. rewrite Hs.
  destruct out; simpl; [done|]. by rewrite app_nil_r.
Qed.

Lemma on_get_recommendations_stores_witness :
  @on_get_recommendations toy_index toy_similarity "Dune" world_dune =
  (Ok tt,
   mkWorld (db_books world_dune) (books_df world_dune)
     (ui world_dune ++ [])
     (mkSession [search_row (book 1 "Dune" 500 [] []);
                 search_row (book 2 "Dune Messiah" 300 [] [])] None None)).
Proof.
  apply (@on_get_recommendations_stores toy_index toy_similarity "Dune" world_dune
           [search_row (book 1 "Dune" 500 [] []);
            search_row (book 2 "Dune Messiah" 300 [] [])]).
  - discriminate.
  - by_eval.
Defined.

(** X26: the stored matches and selection change only through a search
    that returns: on a blank title, and when the search raises, the
    session is what it was before the click. *)
Theorem on_get_recommendations_keeps `{!TitleIndex, !Similarity} q w r w' :
  on_get_recommendations q w = (r, w') →
  q = EmptyString ∨ (∃ e, r = Raise e) →
  session_state w' = session_state w
  ∧ books_df w' = books_df w ∧ db_books w' = db_books w.
Proof.
  intros Hrun Hcase. destruct q as [|c q].
  - unfold on_get_recommendations, st_emit in Hrun. by injection Hrun as <- <-.
  - destruct Hcase as [?|[e ->]]; [done|].
    unfold on_get_recommendations, mbind, M_bind in Hrun.
    destruct (search_cases (String c q) 5 w)
      as [(e' & He)|(rows & _ & Hok)].
    + rewrite He in Hrun. by injection Hrun as <- <-.
    + rewrite Hok in Hrun. simpl in Hrun.
      by destruct (search_row <$> _) in Hrun.
Qed.

Lemma on_get_recommendations_keeps_witness :
  session_state world_dune_searched = session_state world_dune_searched
  ∧ books_df world_dune_searched = books_df world_dune_searched
  ∧ db_books world_dune_searched = db_books world_dune_searched.
Proof.
  apply (@on_get_recommendations_keeps toy_index toy_similarity
           query_with_quote world_dune_searched
           (Raise (OperationalError "unterminated string")) world_dune_searched).
  - by_eval.
  - right. eauto.
Defined.


(** X27: from search to selection.  When every row of the table has a
    row with its id in the DataFrame (as after a load from that table),
    selecting any match of a search runs the block through: no IndexError,
    no other exception. *)
Theorem select_after_search `{!TitleIndex, !Similarity} q k w out x w2 :
  (∀ r, r ∈ db_books w → book_id r ∈ book_id <$> books_df w) →
  search_books_streamlit q k w = (Ok out, w) →
  x ∈ out →
  books_df w2 = books_df w →
  search_results (session_state w2) = out →
  ∃ screen w3, show_selection (Some (s_book_id x)) w2 = (Rendered screen, w3).
Proof.
  intros Hsync Hs Hx Hdf Hres.
  assert (s_book_id x ∈ book_id <$> books_df w) as Hin.
  { destruct (search_cases q k w)
      as [(e & He)|(rows & Hsub & Hok)];
      [rewrite He in Hs; discriminate|].
    rewrite Hok in Hs. injection Hs as <-.
    apply selected_from in Hx as (r & Hr & ->). simpl.
    by apply Hsync, Hsub. }
  unfold show_selection. rewrite Hres.
  destruct out as [|m ms]; [by apply elem_of_nil in Hx|].
  rewrite Hdf.
  destruct (filter (λ r, book_id r = s_book_id x) (books_df w))
    as [|row rest] eqn:Hf.
  { apply list_elem_of_fmap in Hin as (r & Hid & Hr).
    assert (r ∈ filter (λ r, book_id r = s_book_id x) (books_df w)) as Hr'
      by by apply list_elem_of_filter.
    rewrite Hf in Hr'. by apply elem_of_nil in Hr'. }
  set (w1 := mkWorld _ _ _ _).
  destruct (fuse_found_returns w1 (book_id row) 10) as [recs ->].
  { simpl. apply list_elem_of_fmap_2.
    assert (row ∈ filter (λ r, book_id r = s_book_id x) (books_df w)) as Hrow
      by (rewrite Hf; left).
    by apply list_elem_of_filter in Hrow as [_ ?]. }
  destruct recs; eauto.
Qed.

Lemma select_after_search_witness :
  ∃ screen w3,
    show_selection (Some (s_book_id (search_row (book 2 "Dune Messiah" 300 [] []))))
                   world_dune_searched
    = (Rendered screen, w3).
Proof.
  apply (@select_after_search toy_index toy_similarity "Dune" 5 world_dune
           [search_row (book 1 "Dune" 500 [] []);
            search_row (book 2 "Dune Messiah" 300 [] [])]
           (search_row (book 2 "Dune Messiah" 300 [] []))
           world_dune_searched).
  - intros r Hr. by apply list_elem_of_fmap_2.
  - by_eval.
  - rewrite !elem_of_cons. auto.
  - reflexivity.
  - reflexivity.
Defined.
